(** * minBlepy: the index arithmetic of [MinBleps]

    A shallow embedding of [minBlepy/minblep.py]: scale resolution, the
    sizing of the kernel, the padding and demultiplexing of the step
    table, the index maps between the naive and the output time axis,
    and the two queries [getoutcount] and [getminnaiven].

    Python integers are [Z]; [//] is [Z.div] and [%] is [Z.modulo]
    (both floor, as in Python).  Arrays created with [dtype = np.int32]
    hold 32-bit values: their element-wise arithmetic wraps around.
    Floating-point values never enter the arithmetic that is modelled
    here: the samples of the step table are elements of an abstract type,
    and the rounded quotient [round(4 / transition / 2)] is an input. *)

From Stdlib Require Import ZArith Lia.
From stdpp Require Import base tactics option list list_numbers numbers.

Local Open Scope Z_scope.

(** ** Outcomes of Python code *)

Inductive exn : Type :=
  | ScaleError (requested ideal : Z)  (* "Expected scale %s but ideal is %s." *)
  | ZeroDivisionError
  | OverflowError (v : Z)             (* Python int out of bounds for int32 *)
  | IndexError (i : Z)
  | ValueError.

(** [Unspecified] is not an exception: it marks a value read from memory
    that [np.empty] allocated and nothing wrote. *)
Inductive outcome (A : Type) : Type :=
  | Ok (a : A)
  | Raise (e : exn)
  | Unspecified.
Arguments Ok {A} a.
Arguments Raise {A} e.
Arguments Unspecified {A}.

#[global] Instance outcome_ret : MRet outcome := fun A a => Ok a.
#[global] Instance outcome_bind : MBind outcome := fun A B f m =>
  match m with
  | Ok a => f a
  | Raise e => Raise e
  | Unspecified => Unspecified
  end.

(** Python's [a // b] and [a % b] on ints. *)
Definition floordiv (a b : Z) : outcome Z :=
  if decide (b = 0) then Raise ZeroDivisionError else Ok (a / b).
Definition pymod (a b : Z) : outcome Z :=
  if decide (b = 0) then Raise ZeroDivisionError else Ok (a mod b).

(** ** 32-bit integers *)

Definition wrap32 (z : Z) : Z := (z + 2 ^ 31) mod 2 ^ 32 - 2 ^ 31.

Definition fits_int32 (z : Z) : Prop := - 2 ^ 31 <= z < 2 ^ 31.
Arguments wrap32 : simpl never.
#[global] Instance fits_int32_dec z : Decision (fits_int32 z).
Proof. unfold fits_int32. apply _. Defined.

(** A Python int that meets an int32 array (as an operand or as a value
    stored in it) has to be representable in int32. *)
Definition int32_of_pyint (z : Z) : outcome Z :=
  if decide (fits_int32 z) then Ok z else Raise (OverflowError z).

(** ** NumPy arrays

    An array is a list; an index is a Python int.  A negative index
    counts from the end, an index outside [[-len, len)] raises. *)

Definition pyindex (len i : Z) : outcome nat :=
  if decide (0 <= i < len) then Ok (Z.to_nat i)
  else if decide (- len <= i < 0) then Ok (Z.to_nat (i + len))
  else Raise (IndexError i).

Definition getitem {A} (a : list A) (i : Z) : outcome A :=
  k ← pyindex (Z.of_nat (length a)) i;
  match a !! k with
  | Some x => Ok x
  | None => Raise (IndexError i)
  end.

Definition setitem {A} (a : list A) (i : Z) (x : A) : outcome (list A) :=
  k ← pyindex (Z.of_nat (length a)) i;
  Ok (<[k:=x]> a).

(** A slot of an array that [np.empty] allocated holds [None] until it
    is written. *)
Definition initialised {A} (slot : option A) : outcome A :=
  match slot with
  | Some x => Ok x
  | None => Unspecified
  end.

Definition np_full {A} (x : A) (n : Z) : outcome (list A) :=
  if decide (n < 0) then Raise ValueError else Ok (replicate (Z.to_nat n) x).

Definition np_empty {A} (n : Z) : outcome (list (option A)) :=
  np_full None n.

(** [np.arange(n, dtype = np.int32)] *)
Definition arange (n : Z) : list Z := wrap32 <$> seqZ 0 n.

(** [a op c] for an int32 array [a] and a Python int [c]. *)
Definition arr_scalar (op : Z → Z → Z) (a : list Z) (c : Z) : outcome (list Z) :=
  c ← int32_of_pyint c;
  Ok ((λ x, wrap32 (op x c)) <$> a).

(** [a op b] for two int32 arrays of one shape. *)
Definition arr_arr (op : Z → Z → Z) (a b : list Z) : outcome (list Z) :=
  if decide (length a = length b)
  then Ok (zip_with (λ x y, wrap32 (op x y)) a b)
  else Raise ValueError.

(** The bound of a slice, clipped as Python does. *)
Definition slice_bound (len i : Z) : Z :=
  if decide (i < 0) then Z.max 0 (i + len) else Z.min i len.

(** [a[lo:hi] = b]: the shapes have to agree, a single value is
    broadcast. *)
Definition setslice {A} (a : list A) (lo hi : Z) (b : list A) : outcome (list A) :=
  let len := Z.of_nat (length a) in
  let lo' := Z.to_nat (slice_bound len lo) in
  let n := Z.to_nat (slice_bound len hi - slice_bound len lo) in
  if decide (length b = n) then Ok (take lo' a ++ b ++ drop (lo' + n) a)
  else match b with
       | [x] => Ok (take lo' a ++ replicate n x ++ drop (lo' + n) a)
       | _ => Raise ValueError
       end.

(** [a[start::step]] for [0 <= start] and [1 <= step]: the entries at
    [start], [start + step], ... below the length. *)
Definition getslice_step {A} (a : list A) (start step : Z) : list A :=
  omap (λ k, a !! Z.to_nat (start + k * step)) (seqZ 0 (Z.of_nat (length a))).

Fixpoint foldM {A B} (f : B → A → outcome B) (b : B) (l : list A) : outcome B :=
  match l with
  | [] => Ok b
  | x :: l => b' ← f b x; foldM f b' l
  end.

(** ** The class [MinBleps] *)

Module MinBleps.

Definition resolvescale (naiverate outrate : Z) (scaleornone : option Z) : outcome Z :=
  idealscale ← floordiv naiverate (Z.gcd naiverate outrate);
  match scaleornone with
  | Some scale =>
      if decide (scale ≠ idealscale) then Raise (ScaleError scale idealscale)
      else Ok idealscale
  | None => Ok idealscale
  end.

(** *** Sizing of the kernel

    [rounded] is the value of [self.round(4 / transition / 2)]. *)

Definition order (rounded : Z) : Z := rounded * 2.

Definition kernelsize (rounded scale : Z) : Z := order rounded * scale + 1.

(** [while size < kernelsize: size <<= 1] *)
Fixpoint grow_size (fuel : nat) (size kernelsize : Z) : option Z :=
  if decide (size < kernelsize) then
    match fuel with
    | O => None
    | S fuel => grow_size fuel (Z.shiftl size 1) kernelsize
    end
  else Some size.

(** The loop starts from [2 ** 0]; [kernelsize] rounds are enough
    ([grow_size_terminates] below), so the default is never taken. *)
Definition size (kernelsize : Z) : Z :=
  default 1 (grow_size (Z.to_nat kernelsize) (2 ^ 0) kernelsize).

Definition midpoint (size : Z) : Z := size / 2.
Definition rpad (size kernelsize : Z) : Z := (size - kernelsize) / 2.
Definition lpad (size kernelsize : Z) : Z := 1 + rpad size kernelsize.

(** *** Index maps (the lines from [dualscale] on) *)

Definition dualscale (naiverate outrate : Z) : outcome Z :=
  floordiv outrate (Z.gcd naiverate outrate).

(** [nearest], [naivex2outx] and [naivex2shape] *)
Definition forward_maps (naiverate outrate scale : Z) : outcome (list Z * list Z) :=
  dualscale ← dualscale naiverate outrate;
  nearest ← arr_scalar Z.mul (arange naiverate) dualscale;
  naivex2outx ← arr_scalar Z.div nearest scale;
  scaled ← arr_scalar Z.mul naivex2outx scale;
  diff ← arr_arr Z.sub scaled nearest;
  shifted ← arr_scalar Z.add diff scale;
  naivex2shape ← arr_scalar Z.sub shifted 1;
  Ok (naivex2outx, naivex2shape).

(** [for naivex in range(naiverate)[::-1]:
       outx2minnaivex[naivex2outx[naivex]] = naivex] *)
Definition inverse_step (naivex2outx : list Z)
    (outx2minnaivex : list (option Z)) (naivex : Z) : outcome (list (option Z)) :=
  outx ← getitem naivex2outx naivex;
  v ← int32_of_pyint naivex;
  setitem outx2minnaivex outx (Some v).

Definition inverse_map (naiverate outrate : Z) (naivex2outx : list Z)
    : outcome (list (option Z)) :=
  outx2minnaivex ← np_empty outrate;
  foldM (inverse_step naivex2outx) outx2minnaivex (reverse (seqZ 0 naiverate)).

Section Table.

(** The samples of the step table, and the floating-point pipeline that
    produces [np.cumsum(self.minbli)] from the sizes (windowed sinc,
    zero padding, cepstrum, minimum phase). *)
Context {sample : Type} (zero one : sample).
Context (cumsum_minbli : Z → Z → Z → Z → list sample).

Record t : Type := {
  minblep : list sample;
  mixinsize : Z;
  naivex2outx : list Z;
  naivex2shape : list Z;
  demultiplexed : list (option sample);
  naivex2off : list Z;
  outx2minnaivex : list (option Z);
  naiverate : Z;
  outrate : Z
}.

(** Zeros in front, ones behind, and [mixinsize]. *)
Definition step_table (scale : Z) (cumsum : list sample) : outcome (list sample * Z) :=
  zeros ← np_full zero (scale - 1);
  let minblep := zeros ++ cumsum in
  ones ← pymod (- Z.of_nat (length minblep)) scale;
  ones ← np_full one ones;
  let minblep := minblep ++ ones in
  mixinsize ← floordiv (Z.of_nat (length minblep)) scale;
  Ok (minblep, mixinsize).

(** [for i in range(scale):
       demultiplexed[i * mixinsize:(i + 1) * mixinsize] = minblep[i::scale]] *)
Definition demultiplex (scale mixinsize : Z) (minblep : list sample)
    : outcome (list (option sample)) :=
  demultiplexed ← np_empty (Z.of_nat (length minblep));
  foldM (λ demultiplexed i,
           setslice demultiplexed (i * mixinsize) ((i + 1) * mixinsize)
                    (Some <$> getslice_step minblep i scale))
        demultiplexed (seqZ 0 scale).

(** [__init__] *)
Definition init (naiverate outrate scale rounded : Z) : outcome t :=
  let order := order rounded in
  let kernelsize := kernelsize rounded scale in
  let size := size kernelsize in
  let cumsum := cumsum_minbli order scale kernelsize size in
  '(minblep, mixinsize) ← step_table scale cumsum;
  '(naivex2outx, naivex2shape) ← forward_maps naiverate outrate scale;
  demultiplexed ← demultiplex scale mixinsize minblep;
  naivex2off ← arr_scalar Z.mul naivex2shape mixinsize;
  outx2minnaivex ← inverse_map naiverate outrate naivex2outx;
  Ok {| minblep := minblep; mixinsize := mixinsize;
        naivex2outx := naivex2outx; naivex2shape := naivex2shape;
        demultiplexed := demultiplexed; naivex2off := naivex2off;
        outx2minnaivex := outx2minnaivex;
        naiverate := naiverate; outrate := outrate |}.

(** [create] *)
Definition create (naiverate outrate : Z) (scaleornone : option Z) (rounded : Z)
    : outcome t :=
  scale ← resolvescale naiverate outrate scaleornone;
  init naiverate outrate scale rounded.

Definition getoutcount (self : t) (naivex naiven : Z) : outcome Z :=
  out0 ← getitem (naivex2outx self) naivex;
  let naivex := naivex + naiven in
  shift ← floordiv naivex (naiverate self);
  let out0 := out0 - outrate self * shift in
  let naivex := naivex - naiverate self * shift in
  out1 ← getitem (naivex2outx self) naivex;
  Ok (out1 - out0).

Definition getminnaiven (self : t) (naivex outcount : Z) : outcome Z :=
  out0 ← getitem (naivex2outx self) naivex;
  let outx := out0 + outcount in
  shift ← floordiv outx (outrate self);
  let outx := outx - outrate self * shift in
  let naivex := naivex - naiverate self * shift in
  slot ← getitem (outx2minnaivex self) outx;
  minnaivex ← initialised slot;
  Ok (minnaivex - naivex).

End Table.

Arguments minblep {sample} _.
Arguments mixinsize {sample} _.
Arguments naivex2outx {sample} _.
Arguments naivex2shape {sample} _.
Arguments demultiplexed {sample} _.
Arguments naivex2off {sample} _.
Arguments outx2minnaivex {sample} _.
Arguments naiverate {sample} _.
Arguments outrate {sample} _.
Arguments getoutcount {sample} _ _ _.
Arguments getminnaiven {sample} _ _ _.

End MinBleps.

(** * Closed forms

    The entries of [nearest], [naivex2outx] and [naivex2shape], with
    every 32-bit operation of the array expressions written out. *)

Definition nearest_at (dualscale n : Z) : Z := wrap32 (wrap32 n * dualscale).

Definition outx_at (dualscale scale n : Z) : Z :=
  wrap32 (nearest_at dualscale n / scale).

Definition shape_at (dualscale scale n : Z) : Z :=
  wrap32 (wrap32 (wrap32 (wrap32 (outx_at dualscale scale n * scale)
                          - nearest_at dualscale n) + scale) - 1).

(** [first_hit g j k] is the least [n] below [k] with [g n = j]. *)
Fixpoint first_hit (g : Z → Z) (j : Z) (k : nat) : option Z :=
  match k with
  | O => None
  | S k' =>
      match first_hit g j k' with
      | Some m => Some m
      | None => if decide (g (Z.of_nat k') = j) then Some (Z.of_nat k') else None
      end
  end.

(** A slot after the loop: the first hit if there is one, else what
    the slot held before. *)
Definition keep_first (hit old : option Z) : option Z :=
  match hit with
  | Some m => Some m
  | None => old
  end.

(** No product of [nearest] leaves the 32-bit range. *)
Definition no_overflow (naiverate outrate : Z) : Prop :=
  (naiverate - 1) * (outrate / Z.gcd naiverate outrate) < 2 ^ 31.

(** [naivex2outx[outx2minnaivex[naivex2outx[n]]]] *)
Definition roundtrip (naivex2outx : list Z) (outx2minnaivex : list (option Z))
    (n : Z) : outcome Z :=
  outx ← getitem naivex2outx n;
  slot ← getitem outx2minnaivex outx;
  minnaivex ← initialised slot;
  getitem naivex2outx minnaivex.


(** * Examples

    A stand-in for the floating-point pipeline: integer samples, as many
    as the source produces ([lpad] zeros, the kernel, [rpad] zeros). *)

Definition example_cumsum (order scale kernelsize size : Z) : list Z :=
  seqZ 100 (MinBleps.lpad size kernelsize + Z.max 0 kernelsize
            + MinBleps.rpad size kernelsize).

(** The table of [create(4, 6, None)] with [rounded = 1]. *)
Definition example_4_6 : MinBleps.t :=
  {| MinBleps.minblep := [0; 100; 101; 102; 103; 104; 105; 106; 107; 1];
     MinBleps.mixinsize := 5;
     MinBleps.naivex2outx := [0; 1; 3; 4];
     MinBleps.naivex2shape := [1; 0; 1; 0];
     MinBleps.demultiplexed :=
       [Some 0; Some 101; Some 103; Some 105; Some 107;
        Some 100; Some 102; Some 104; Some 106; Some 1];
     MinBleps.naivex2off := [5; 0; 5; 0];
     MinBleps.outx2minnaivex := [Some 0; Some 1; None; Some 2; Some 3; None];
     MinBleps.naiverate := 4;
     MinBleps.outrate := 6 |}.

(** * Properties *)

Lemma wrap32_id z : fits_int32 z → wrap32 z = z.
Proof.
  unfold fits_int32, wrap32. intros H.
  rewrite Z.mod_small by lia. lia.
Qed.

Lemma wrap32_fits z : fits_int32 (wrap32 z).
Proof.
  unfold fits_int32, wrap32.
  pose proof (Z.mod_pos_bound (z + 2 ^ 31) (2 ^ 32)). lia.
Qed.

Lemma gcd_pos_l a b : 0 < a → 0 < Z.gcd a b.
Proof.
  intros Ha. pose proof (Z.gcd_nonneg a b).
  destruct (decide (Z.gcd a b = 0)) as [E|]; [|lia].
  apply Z.gcd_eq_0_l in E. lia.
Qed.

(** ** The sizing loop *)

Lemma grow_size_spec kernelsize fuel k :
  0 <= k → kernelsize - 2 ^ k <= Z.of_nat fuel →
  (k = 0 ∨ 2 ^ (k - 1) < kernelsize) →
  ∃ k', k <= k' ∧
        MinBleps.grow_size fuel (2 ^ k) kernelsize = Some (2 ^ k') ∧
        kernelsize <= 2 ^ k' ∧ (k' = 0 ∨ 2 ^ (k' - 1) < kernelsize).
Proof.
  revert k. induction fuel as [|fuel IH]; intros k Hk Hfuel Hleast.
  - exists k. cbn [MinBleps.grow_size]. rewrite decide_False by lia.
    split; [lia|]. split; [done|]. split; [lia|done].
  - cbn [MinBleps.grow_size].
    destruct (decide (2 ^ k < kernelsize)) as [Hlt|Hge].
    + assert (Hpos : 0 < 2 ^ k) by (apply Z.pow_pos_nonneg; lia).
      assert (Hdouble : Z.shiftl (2 ^ k) 1 = 2 ^ (k + 1)).
      { rewrite Z.shiftl_mul_pow2, Z.pow_add_r by lia. done. }
      rewrite Hdouble.
      destruct (IH (k + 1)) as (k' & Hk' & Hres & Hle & Hmin).
      { lia. }
      { rewrite Z.pow_add_r by lia. lia. }
      { right. by replace (k + 1 - 1) with k by lia. }
      exists k'. split; [lia|done].
    + exists k. split; [lia|]. split; [done|]. split; [lia|done].
Qed.

Lemma grow_size_terminates kernelsize :
  is_Some (MinBleps.grow_size (Z.to_nat kernelsize) (2 ^ 0) kernelsize).
Proof.
  destruct (grow_size_spec kernelsize (Z.to_nat kernelsize) 0)
    as (k' & _ & Hres & _); [lia|change (2 ^ 0) with 1; lia|by left|].
  by eexists.
Qed.

(** [size] is the least power of two that is at least [kernelsize]. *)
Lemma size_spec kernelsize :
  ∃ k, 0 <= k ∧ MinBleps.size kernelsize = 2 ^ k ∧
       kernelsize <= MinBleps.size kernelsize ∧
       ∀ j, 0 <= j → kernelsize <= 2 ^ j → MinBleps.size kernelsize <= 2 ^ j.
Proof.
  destruct (grow_size_spec kernelsize (Z.to_nat kernelsize) 0)
    as (k & Hk & Hres & Hle & Hmin); [lia|change (2 ^ 0) with 1; lia|by left|].
  unfold MinBleps.size. rewrite Hres. cbn [default from_option id].
  exists k. split; [done|]. split; [done|]. split; [done|].
  intros j Hj Hks. destruct Hmin as [->|Hmin].
  - change (2 ^ 0) with 1.
    pose proof (Z.pow_pos_nonneg 2 j ltac:(lia) Hj). lia.
  - apply Z.pow_le_mono_r; [lia|].
    destruct (decide (k <= j)); [done|]. exfalso.
    assert (2 ^ j <= 2 ^ (k - 1)) by (apply Z.pow_le_mono_r; lia). lia.
Qed.

Lemma size_pos kernelsize : 0 < MinBleps.size kernelsize.
Proof.
  destruct (size_spec kernelsize) as (k & Hk & -> & _).
  apply Z.pow_pos_nonneg; lia.
Qed.

(** ** Arrays *)

Lemma bind_Ok {A B} (m : outcome A) (f : A → outcome B) b :
  m ≫= f = Ok b ↔ ∃ a, m = Ok a ∧ f a = Ok b.
Proof.
  destruct m as [a| |]; simpl; split; try (intros (? & ? & ?)); try done.
  - eauto.
  - congruence.
Qed.

Lemma int32_of_pyint_Ok z v : int32_of_pyint z = Ok v ↔ fits_int32 z ∧ v = z.
Proof.
  unfold int32_of_pyint. destruct (decide (fits_int32 z)); split;
    intros; try (destruct_and?; congruence); naive_solver.
Qed.

Lemma arr_scalar_Ok op a c b :
  arr_scalar op a c = Ok b ↔ fits_int32 c ∧ b = (λ x, wrap32 (op x c)) <$> a.
Proof.
  unfold arr_scalar. rewrite bind_Ok. setoid_rewrite int32_of_pyint_Ok.
  split.
  - intros (c' & [Hc ->] & [= <-]). done.
  - intros [Hc ->]. eauto.
Qed.

Lemma pyindex_Ok len i :
  - len <= i < len → pyindex len i = Ok (Z.to_nat (i mod len)).
Proof.
  intros Hi. unfold pyindex.
  destruct (decide (0 <= i < len)).
  - by rewrite Z.mod_small.
  - destruct (decide (- len <= i < 0)); [|lia].
    replace (i mod len) with (i + len); [done|].
    apply Z.mod_unique with (-1); lia.
Qed.

Lemma pyindex_Ok_inv len i k : pyindex len i = Ok k → - len <= i < len.
Proof.
  unfold pyindex.
  destruct (decide (0 <= i < len)); [lia|].
  destruct (decide (- len <= i < 0)); [lia|done].
Qed.

Lemma getitem_fmap_seqZ {A} (f : Z → A) (len n : Z) :
  0 <= n < len → getitem (f <$> seqZ 0 len) n = Ok (f n).
Proof.
  intros Hn. unfold getitem.
  rewrite length_fmap, length_seqZ, Z2Nat.id by lia.
  rewrite pyindex_Ok by lia. simpl.
  rewrite Z.mod_small by lia.
  rewrite list_lookup_fmap, lookup_seqZ_lt by lia. simpl.
  f_equal. f_equal. lia.
Qed.



Lemma getitem_out_of_range {A} (a : list A) (i : Z) :
  i < - Z.of_nat (length a) ∨ Z.of_nat (length a) <= i →
  getitem a i = Raise (IndexError i).
Proof.
  intros Hi. unfold getitem, pyindex.
  rewrite (decide_False (P := 0 <= i < _)) by lia.
  rewrite (decide_False (P := _ <= i < 0)) by lia. done.
Qed.

(** ** The forward maps, entry by entry *)

Lemma dualscale_Ok naiverate outrate d :
  MinBleps.dualscale naiverate outrate = Ok d ↔
  Z.gcd naiverate outrate ≠ 0 ∧ d = outrate / Z.gcd naiverate outrate.
Proof.
  unfold MinBleps.dualscale, floordiv.
  destruct (decide (Z.gcd naiverate outrate = 0)) as [E|E].
  - split; [done | by intros [? _]].
  - split; [intros [= <-]; done | intros [_ ->]; done].
Qed.

Lemma fmap_fmap {A B C} (f : A → B) (g : B → C) (l : list A) :
  g <$> (f <$> l) = (λ x, g (f x)) <$> l.
Proof. symmetry. exact (list_fmap_compose f g l). Qed.

Lemma zip_with_fmap_same {A B C D} (h : B → C → D) (f : A → B) (g : A → C) l :
  zip_with h (f <$> l) (g <$> l) = (λ x, h (f x) (g x)) <$> l.
Proof. induction l as [|x l IH]; [done|]. cbn. f_equal. exact IH. Qed.

Lemma forward_arrays (l : list Z) (d scale : Z) :
  let nearest := (λ x, wrap32 (x * d)) <$> (wrap32 <$> l) in
  let outx := (λ x, wrap32 (x / scale)) <$> nearest in
  outx = outx_at d scale <$> l ∧
  (λ x, wrap32 (x - 1)) <$> ((λ x, wrap32 (x + scale)) <$>
     zip_with (λ x y, wrap32 (x - y)) ((λ x, wrap32 (x * scale)) <$> outx) nearest)
  = shape_at d scale <$> l.
Proof.
  intros nearest outx.
  assert (Hn : nearest = nearest_at d <$> l).
  { subst nearest. rewrite fmap_fmap. unfold nearest_at. reflexivity. }
  assert (Ho : outx = outx_at d scale <$> l).
  { subst outx. rewrite Hn, fmap_fmap. unfold outx_at. reflexivity. }
  split; [exact Ho|].
  rewrite Ho, Hn, !fmap_fmap, zip_with_fmap_same, fmap_fmap.
  unfold shape_at. reflexivity.
Qed.

Lemma forward_maps_Ok naiverate outrate scale a sh :
  MinBleps.forward_maps naiverate outrate scale = Ok (a, sh) ↔
  ∃ d, MinBleps.dualscale naiverate outrate = Ok d ∧
       fits_int32 d ∧ fits_int32 scale ∧
       a = outx_at d scale <$> seqZ 0 naiverate ∧
       sh = shape_at d scale <$> seqZ 0 naiverate.
Proof.
  assert (Hone : fits_int32 1) by (unfold fits_int32; lia).
  unfold MinBleps.forward_maps, arange. rewrite bind_Ok.
  generalize (seqZ 0 naiverate). intros l.
  split.
  - intros (d & Hd & H). exists d. split; [done|].
    destruct (forward_arrays l d scale) as [Ha Hs].
    apply bind_Ok in H as (nearest & [? ->]%arr_scalar_Ok & H2).
    apply bind_Ok in H2 as (outx & [? ->]%arr_scalar_Ok & H3).
    apply bind_Ok in H3 as (scaled & [? ->]%arr_scalar_Ok & H4).
    apply bind_Ok in H4 as (diff & Hdiff & H5).
    apply bind_Ok in H5 as (shifted & [? ->]%arr_scalar_Ok & H6).
    apply bind_Ok in H6 as (shape & [? ->]%arr_scalar_Ok & H7).
    injection H7 as <- <-.
    unfold arr_arr in Hdiff. case_decide; [|done].
    injection Hdiff as <-.
    split; [done|split; [done|split]]; [exact Ha | exact Hs].
  - intros (d & Hd & Hfd & Hfs & -> & ->). exists d. split; [done|].
    destruct (forward_arrays l d scale) as [Ha Hs].
    unfold arr_scalar, int32_of_pyint, arr_arr.
    rewrite !decide_True by done. cbn [mbind outcome_bind].
    rewrite decide_True by (by rewrite !length_fmap).
    cbn [mbind outcome_bind]. f_equal. f_equal; [exact Ha | exact Hs].
Qed.

(** ** Arithmetic of the entries *)

Lemma wrap32_cong z : ∃ k, wrap32 z = z + k * 2 ^ 32.
Proof.
  exists (- ((z + 2 ^ 31) / 2 ^ 32)). unfold wrap32.
  pose proof (Z.div_mod (z + 2 ^ 31) (2 ^ 32)). lia.
Qed.

Lemma wrap32_unique z v : fits_int32 v → (∃ k, v = z + k * 2 ^ 32) → wrap32 z = v.
Proof.
  intros Hv [k ->]. destruct (wrap32_cong z) as [k' Hk'].
  pose proof (wrap32_fits z) as Hf. unfold fits_int32 in *.
  assert (k' = k) by lia. subst. lia.
Qed.

Lemma div_fits x s : 0 < s → fits_int32 x → fits_int32 (x / s).
Proof.
  unfold fits_int32. intros Hs Hx. split.
  - apply Z.div_le_lower_bound; [done|]. nia.
  - apply Z.div_lt_upper_bound; [done|]. nia.
Qed.

Lemma outx_at_div d s n : 0 < s → outx_at d s n = nearest_at d n / s.
Proof.
  intros Hs. unfold outx_at. apply wrap32_id, div_fits; [done|].
  apply wrap32_fits.
Qed.

(** The phase is in range whatever the products did. *)
Lemma shape_at_range d s n :
  0 < s → fits_int32 s → 0 <= shape_at d s n < s.
Proof.
  intros Hs Hfs.
  pose proof (Z.div_mod (nearest_at d n) s ltac:(lia)) as Hdm.
  pose proof (Z.mod_pos_bound (nearest_at d n) s Hs) as Hm.
  assert (Hv : shape_at d s n
               = nearest_at d n / s * s - nearest_at d n + s - 1).
  { unfold shape_at. rewrite outx_at_div by done.
    set (x := nearest_at d n) in *. set (q := x / s) in *.
    destruct (wrap32_cong (q * s)) as [k1 ->].
    destruct (wrap32_cong (q * s + k1 * 2 ^ 32 - x)) as [k2 ->].
    destruct (wrap32_cong (q * s + k1 * 2 ^ 32 - x + k2 * 2 ^ 32 + s)) as [k3 ->].
    apply wrap32_unique.
    - unfold fits_int32 in *. lia.
    - exists (- (k1 + k2 + k3)). lia. }
  rewrite Hv. lia.
Qed.

(** Without overflow the entries are the quotients of the claim. *)
Lemma nearest_at_exact d n :
  0 <= n → 0 <= d → n * d < 2 ^ 31 → n < 2 ^ 31 → nearest_at d n = n * d.
Proof.
  intros Hn Hd Hnd Hn'. unfold nearest_at.
  rewrite (wrap32_id n) by (unfold fits_int32; lia).
  apply wrap32_id. unfold fits_int32. nia.
Qed.

Lemma outx_at_exact d s n :
  0 <= n → 0 <= d → 0 < s → n * d < 2 ^ 31 → n < 2 ^ 31 →
  outx_at d s n = n * d / s.
Proof.
  intros. rewrite outx_at_div, nearest_at_exact by done. done.
Qed.

Lemma shape_at_exact d s n :
  0 <= n → 0 <= d → 0 < s → fits_int32 s → n * d < 2 ^ 31 → n < 2 ^ 31 →
  shape_at d s n = n * d / s * s - n * d + s - 1.
Proof.
  intros Hn Hd Hs Hfs Hnd Hn'.
  pose proof (Z.div_mod (n * d) s ltac:(lia)) as Hdm.
  pose proof (Z.mod_pos_bound (n * d) s Hs) as Hm.
  assert (0 <= n * d) by nia.
  assert (0 <= n * d / s) by (apply Z.div_pos; lia).
  unfold shape_at. rewrite outx_at_exact, nearest_at_exact by done.
  unfold fits_int32 in Hfs.
  rewrite (wrap32_id (n * d / s * s)) by (unfold fits_int32; lia).
  rewrite (wrap32_id (n * d / s * s - n * d)) by (unfold fits_int32; lia).
  rewrite (wrap32_id (n * d / s * s - n * d + s)) by (unfold fits_int32; lia).
  apply wrap32_id. unfold fits_int32. lia.
Qed.

(** The rates, their gcd, and the two scales. *)
Lemma rates_scales naiverate outrate :
  0 < naiverate → 0 < outrate →
  let g := Z.gcd naiverate outrate in
  let s := naiverate / g in
  let d := outrate / g in
  0 < g ∧ 0 < s ∧ 0 < d ∧ naiverate = s * g ∧ outrate = d * g ∧
  s * outrate = naiverate * d.
Proof.
  intros Hn Ho g s d.
  pose proof (gcd_pos_l naiverate outrate Hn) as Hg. fold g in Hg.
  destruct (Z.gcd_divide_l naiverate outrate) as [qn Hqn]. fold g in Hqn.
  destruct (Z.gcd_divide_r naiverate outrate) as [qo Hqo]. fold g in Hqo.
  assert (s = qn) as ->.
  { subst s. rewrite Hqn. apply Z.div_mul. lia. }
  assert (d = qo) as ->.
  { subst d. rewrite Hqo. apply Z.div_mul. lia. }
  split; [done|]. split; [nia|]. split; [nia|].
  split; [done|]. split; [done|]. clearbody g. subst naiverate outrate. ring.
Qed.

(** With the ideal scale every entry of [naivex2outx] is a valid index
    of [outx2minnaivex], from the front or from the end. *)
Lemma outx_at_index naiverate outrate n :
  0 < naiverate → 0 < outrate → 0 <= n < naiverate → naiverate <= 2 ^ 31 →
  let g := Z.gcd naiverate outrate in
  - outrate <= outx_at (outrate / g) (naiverate / g) n < outrate.
Proof.
  intros Hn Ho Hi Hmax g.
  destruct (rates_scales naiverate outrate Hn Ho)
    as (Hg & Hs & Hd & Hns & Hod & Hlcm).
  fold g in Hg, Hs, Hd, Hns, Hod, Hlcm.
  set (s := naiverate / g) in *. set (d := outrate / g) in *.
  rewrite outx_at_div by done.
  destruct (decide (2 ^ 31 <= s * outrate)) as [Hbig|Hsmall].
  - pose proof (wrap32_fits (wrap32 n * d)) as Hf. fold (nearest_at d n) in Hf.
    unfold fits_int32 in Hf. split.
    + apply Z.div_le_lower_bound; [done|]. lia.
    + apply Z.div_lt_upper_bound; [done|]. lia.
  - assert (n * d < naiverate * d) by nia.
    rewrite nearest_at_exact by lia. split.
    + assert (0 <= n * d / s) by (apply Z.div_pos; nia). lia.
    + apply Z.div_lt_upper_bound; [done|]. lia.
Qed.

Lemma outx_at_exact_range naiverate outrate n :
  0 < naiverate → 0 < outrate → 0 <= n < naiverate →
  let g := Z.gcd naiverate outrate in
  0 <= n * (outrate / g) / (naiverate / g) < outrate.
Proof.
  intros Hn Ho Hi g.
  destruct (rates_scales naiverate outrate Hn Ho)
    as (Hg & Hs & Hd & Hns & Hod & Hlcm).
  fold g in Hg, Hs, Hd, Hns, Hod, Hlcm.
  set (s := naiverate / g) in *. set (d := outrate / g) in *.
  split.
  - apply Z.div_pos; nia.
  - apply Z.div_lt_upper_bound; [done|]. nia.
Qed.

(** ** The loop that fills [outx2minnaivex] *)

Lemma first_hit_spec g j k :
  (∀ m, first_hit g j k = Some m ↔
        0 <= m < Z.of_nat k ∧ g m = j ∧ ∀ n, 0 <= n < m → g n ≠ j) ∧
  (first_hit g j k = None ↔ ∀ n, 0 <= n < Z.of_nat k → g n ≠ j).
Proof.
  induction k as [|k [IHs IHn]]; simpl.
  - split; [intros m; split; [done|lia]|]. split; [intros _ n; lia|done].
  - destruct (first_hit g j k) as [m'|] eqn:E.
    + pose proof (proj1 (IHs m') eq_refl) as (Hm' & Hg' & Hmin').
      split.
      * intros m. split.
        -- intros [= <-]. split; [lia|done].
        -- intros (Hm & Hg & Hmin). f_equal.
           destruct (Z.lt_trichotomy m m') as [Hlt|[->|Hgt]]; [|done|].
           ++ exfalso. apply (Hmin' m); [lia|done].
           ++ exfalso. apply (Hmin m'); [lia|done].
      * split; [done|]. intros Hall. exfalso. apply (Hall m'); [lia|done].
    + pose proof (proj1 IHn eq_refl) as Hnone.
      destruct (decide (g (Z.of_nat k) = j)) as [Hk|Hk].
      * split.
        -- intros m. split.
           ++ intros [= <-]. split; [lia|]. split; [done|]. done.
           ++ intros (Hm & Hg & Hmin). f_equal.
              destruct (decide (m = Z.of_nat k)) as [->|Hne]; [done|].
              exfalso. apply (Hnone m); [lia|done].
        -- split; [done|]. intros Hall. exfalso. apply (Hall (Z.of_nat k)); [lia|done].
      * split.
        -- intros m. split; [done|]. intros (Hm & Hg & Hmin).
           destruct (decide (m = Z.of_nat k)) as [->|Hne]; [done|].
           exfalso. apply (Hnone m); [lia|done].
        -- split; [|done]. intros _ n Hn.
           destruct (decide (n = Z.of_nat k)) as [->|Hne]; [done|].
           apply Hnone. lia.
Qed.

Lemma first_hit_Some g j k m :
  first_hit g j k = Some m ↔
  0 <= m < Z.of_nat k ∧ g m = j ∧ ∀ n, 0 <= n < m → g n ≠ j.
Proof. apply first_hit_spec. Qed.

Lemma first_hit_None g j k :
  first_hit g j k = None ↔ ∀ n, 0 <= n < Z.of_nat k → g n ≠ j.
Proof. apply first_hit_spec. Qed.

Lemma first_hit_hit g j k n :
  0 <= n < Z.of_nat k → g n = j →
  ∃ m, first_hit g j k = Some m ∧ 0 <= m <= n ∧ g m = j.
Proof.
  intros Hn Hg. destruct (first_hit g j k) as [m|] eqn:E.
  - apply first_hit_Some in E as (Hm & Hgm & Hmin). exists m.
    split; [done|]. split; [|done].
    destruct (decide (m <= n)); [lia|]. exfalso. apply (Hmin n); [lia|done].
  - exfalso. apply (proj1 (first_hit_None g j k) E n); done.
Qed.

Lemma first_hit_ext g g' j k :
  (∀ n, 0 <= n < Z.of_nat k → g n = g' n) →
  first_hit g j k = first_hit g' j k.
Proof.
  induction k as [|k IH]; intros H; [done|]. cbn [first_hit].
  rewrite IH by (intros n Hn; apply H; lia). rewrite H by lia. done.
Qed.

Lemma foldM_cons {A B} (f : B → A → outcome B) b x l :
  foldM f b (x :: l) = f b x ≫= λ b', foldM f b' l.
Proof. reflexivity. Qed.

Lemma inverse_step_Ok (a : list Z) (acc : list (option Z)) (n v : Z) :
  getitem a n = Ok v → fits_int32 n →
  - Z.of_nat (length acc) <= v < Z.of_nat (length acc) →
  MinBleps.inverse_step a acc n
  = Ok (<[Z.to_nat (v mod Z.of_nat (length acc)) := Some n]> acc).
Proof.
  intros Hget Hn Hv. unfold MinBleps.inverse_step.
  rewrite Hget. cbn [mbind outcome_bind].
  unfold int32_of_pyint. rewrite decide_True by done. cbn [mbind outcome_bind].
  unfold setitem. rewrite pyindex_Ok by done. reflexivity.
Qed.

Lemma inverse_loop (a : list Z) (f : Z → Z) (outrate : Z) (k : nat)
    (acc : list (option Z)) :
  Z.of_nat (length acc) = outrate →
  Z.of_nat k <= 2 ^ 31 →
  (∀ n, 0 <= n < Z.of_nat k → getitem a n = Ok (f n)) →
  (∀ n, 0 <= n < Z.of_nat k → - outrate <= f n < outrate) →
  ∃ res, foldM (MinBleps.inverse_step a) acc (reverse (seqZ 0 (Z.of_nat k))) = Ok res ∧
         length res = length acc ∧
         ∀ j : nat, res !! j =
           keep_first (first_hit (λ n, f n mod outrate) (Z.of_nat j) k) <$> acc !! j.
Proof.
  revert acc. induction k as [|k IH]; intros acc Hlen Hk Hget Hidx.
  - exists acc. split; [done|]. split; [done|]. intros j. simpl.
    by destruct (acc !! j).
  - rewrite seqZ_S, Z.add_0_l, reverse_snoc, foldM_cons.
    rewrite (inverse_step_Ok a acc _ (f (Z.of_nat k)));
      [|apply Hget; lia|unfold fits_int32; lia|rewrite Hlen; apply Hidx; lia].
    cbn [mbind outcome_bind]. rewrite Hlen.
    assert (Hout : 0 < outrate) by (specialize (Hidx (Z.of_nat k)); lia).
    pose proof (Z.mod_pos_bound (f (Z.of_nat k)) outrate Hout) as Hslot.
    set (slot := Z.to_nat (f (Z.of_nat k) mod outrate)).
    assert (Hslot' : (slot < length acc)%nat) by (subst slot; lia).
    assert (Hslot_eq : Z.of_nat slot = f (Z.of_nat k) mod outrate)
      by (subst slot; lia).
    clearbody slot.
    destruct (IH (<[slot:=Some (Z.of_nat k)]> acc)) as (res & Hres & Hlres & Hlook).
    { by rewrite length_insert. }
    { lia. }
    { intros n Hn. apply Hget. lia. }
    { intros n Hn. apply Hidx. lia. }
    exists res. split; [done|]. split; [by rewrite Hlres, length_insert|].
    intros j. rewrite Hlook. cbn [first_hit].
    destruct (decide (slot = j)) as [<-|Hne].
    + rewrite list_lookup_insert_eq by done.
      destruct (lookup_lt_is_Some_2 acc slot) as [old Hold]; [done|].
      rewrite Hold. cbn [fmap option_fmap option_map].
      rewrite decide_True by lia.
      by destruct (first_hit _ _ k).
    + rewrite list_lookup_insert_ne by done.
      rewrite decide_False by lia.
      by destruct (first_hit _ _ k).
Qed.

Lemma inverse_map_Ok (naiverate outrate : Z) (a : list Z) (f : Z → Z) :
  0 <= naiverate <= 2 ^ 31 → 0 <= outrate →
  (∀ n, 0 <= n < naiverate → getitem a n = Ok (f n)) →
  (∀ n, 0 <= n < naiverate → - outrate <= f n < outrate) →
  ∃ res, MinBleps.inverse_map naiverate outrate a = Ok res ∧
         Z.of_nat (length res) = outrate ∧
         ∀ j, 0 <= j < outrate →
           res !! Z.to_nat j
           = Some (first_hit (λ n, f n mod outrate) j (Z.to_nat naiverate)).
Proof.
  intros Hn Ho Hget Hidx. unfold MinBleps.inverse_map, np_empty, np_full.
  rewrite decide_False by lia. cbn [mbind outcome_bind].
  destruct (inverse_loop a f outrate (Z.to_nat naiverate)
              (replicate (Z.to_nat outrate) None))
    as (res & Hres & Hlen & Hlook).
  { rewrite length_replicate. lia. }
  { lia. }
  { intros n Hi. apply Hget. lia. }
  { intros n Hi. apply Hidx. lia. }
  rewrite Z2Nat.id in Hres by lia.
  exists res. split; [done|]. rewrite length_replicate in Hlen.
  split; [lia|]. intros j Hj. rewrite Hlook, lookup_replicate_2 by lia.
  cbn. rewrite Z2Nat.id by lia. by destruct (first_hit _ _ _).
Qed.

Lemma getitem_Z {A} (a : list A) (i : Z) (x : A) :
  - Z.of_nat (length a) <= i < Z.of_nat (length a) →
  a !! Z.to_nat (i mod Z.of_nat (length a)) = Some x → getitem a i = Ok x.
Proof.
  intros Hi Hx. unfold getitem. rewrite pyindex_Ok by done.
  cbn [mbind outcome_bind]. by rewrite Hx.
Qed.

Lemma inverse_map_fits (naiverate outrate : Z) (a : list Z) o :
  0 < naiverate → MinBleps.inverse_map naiverate outrate a = Ok o →
  naiverate <= 2 ^ 31.
Proof.
  intros Hn H. unfold MinBleps.inverse_map in H.
  apply bind_Ok in H as (o0 & _ & H).
  replace naiverate with (Z.of_nat (S (Z.to_nat (naiverate - 1)))) in H by lia.
  rewrite seqZ_S, Z.add_0_l, reverse_snoc, foldM_cons in H.
  apply bind_Ok in H as (o1 & H & _).
  unfold MinBleps.inverse_step in H.
  apply bind_Ok in H as (outx & _ & H).
  apply bind_Ok in H as (v & [Hv _]%int32_of_pyint_Ok & _).
  unfold fits_int32 in Hv. lia.
Qed.

Lemma resolvescale_Ok naiverate outrate scaleornone scale :
  0 < naiverate →
  MinBleps.resolvescale naiverate outrate scaleornone = Ok scale →
  scale = naiverate / Z.gcd naiverate outrate.
Proof.
  intros Hn H. pose proof (gcd_pos_l naiverate outrate Hn).
  unfold MinBleps.resolvescale, floordiv in H.
  rewrite decide_False in H by lia. cbn [mbind outcome_bind] in H.
  destruct scaleornone as [requested|]; [|congruence].
  destruct (decide (requested ≠ naiverate / Z.gcd naiverate outrate));
    congruence.
Qed.


(** ** The quotients [n * d / s] as a map onto the output indices *)

Lemma quotient_onto s d N O j :
  0 < d <= s → s * O = N * d → 0 <= j < O →
  ∃ n, 0 <= n < N ∧ n * d / s = j.
Proof.
  intros Hd Hl Hj. set (n := (j * s + d - 1) / d).
  pose proof (Z.div_mod (j * s + d - 1) d ltac:(lia)) as Hdm.
  pose proof (Z.mod_pos_bound (j * s + d - 1) d ltac:(lia)) as Hm.
  fold n in Hdm.
  assert (Hlo : j * s <= n * d) by lia.
  assert (Hhi : n * d <= j * s + d - 1) by lia.
  assert (Hjs : j * s <= (O - 1) * s) by (apply Z.mul_le_mono_nonneg_r; lia).
  exists n. split; [split; nia|].
  symmetry. apply Z.div_unique_pos with (n * d - j * s); lia.
Qed.

Lemma quotient_misses_last s d N O n :
  0 < s < d → s * O = N * d → 0 <= n < N → n * d / s ≠ O - 1.
Proof.
  intros Hs Hl Hn E.
  pose proof (Z.div_mod (n * d) s ltac:(lia)) as Hdm.
  pose proof (Z.mod_pos_bound (n * d) s ltac:(lia)) as Hm.
  rewrite E in Hdm.
  assert (d <= (N - n) * d) by nia. nia.
Qed.

(** ** The two maps of a pair of rates *)

Lemma index_maps_Ok naiverate outrate :
  0 < naiverate < 2 ^ 31 → 0 < outrate < 2 ^ 31 →
  let g := Z.gcd naiverate outrate in
  let f := outx_at (outrate / g) (naiverate / g) in
  ∃ o, MinBleps.forward_maps naiverate outrate (naiverate / g)
       = Ok (f <$> seqZ 0 naiverate,
             shape_at (outrate / g) (naiverate / g) <$> seqZ 0 naiverate) ∧
       MinBleps.inverse_map naiverate outrate (f <$> seqZ 0 naiverate) = Ok o ∧
       Z.of_nat (length o) = outrate ∧
       ∀ j, 0 <= j < outrate →
         o !! Z.to_nat j
         = Some (first_hit (λ n, f n mod outrate) j (Z.to_nat naiverate)).
Proof.
  intros Hn Ho g f.
  destruct (rates_scales naiverate outrate) as (Hg & Hs & Hd & Hns & Hod & _);
    [lia|lia|].
  fold g in Hg, Hs, Hd, Hns, Hod.
  destruct (inverse_map_Ok naiverate outrate (f <$> seqZ 0 naiverate) f)
    as (o & Hinv & Hlen & Hlook).
  { lia. } { lia. }
  { intros n Hi. by apply getitem_fmap_seqZ. }
  { intros n Hi. subst f g. apply outx_at_index; lia. }
  exists o. split; [|done].
  apply forward_maps_Ok. exists (outrate / g).
  split; [apply dualscale_Ok; fold g; split; [lia|done]|].
  split; [unfold fits_int32; nia|]. split; [unfold fits_int32; nia|].
  split; reflexivity.
Qed.

(** ** Slices *)

Lemma foldM_snoc {A B} (f : B → A → outcome B) b l x :
  foldM f b (l ++ [x]) = foldM f b l ≫= λ b', f b' x.
Proof.
  revert b. induction l as [|y l IH]; intros b; cbn [foldM app].
  - cbn [mbind outcome_bind]. by destruct (f b x).
  - destruct (f b y) as [b'| |]; cbn [mbind outcome_bind]; [apply IH|done|done].
Qed.

Lemma omap_seqZ_Some {A} (f : Z → option A) (m : nat) :
  (∀ k, 0 <= k < Z.of_nat m → is_Some (f k)) →
  length (omap f (seqZ 0 (Z.of_nat m))) = m ∧
  ∀ k : nat, (k < m)%nat → omap f (seqZ 0 (Z.of_nat m)) !! k = f (Z.of_nat k).
Proof.
  induction m as [|m IH]; intros Hf.
  - split; [done|]. intros k Hk. lia.
  - destruct IH as [IHlen IHlook]; [intros k Hk; apply Hf; lia|].
    destruct (Hf (Z.of_nat m)) as [x Hx]; [lia|].
    rewrite seqZ_S, omap_app, Z.add_0_l. cbn [omap list_omap]. rewrite Hx.
    split; [rewrite length_app, IHlen; cbn; lia|].
    intros k Hk. destruct (decide (k = m)) as [->|Hne].
    + rewrite lookup_app_r by lia. rewrite IHlen, Nat.sub_diag. by rewrite Hx.
    + rewrite lookup_app_l by lia. apply IHlook. lia.
Qed.

Lemma omap_seqZ_None {A} (f : Z → option A) (lo : Z) (n : nat) :
  (∀ k, lo <= k < lo + Z.of_nat n → f k = None) →
  omap f (seqZ lo (Z.of_nat n)) = [].
Proof.
  induction n as [|n IH]; intros Hf; [done|].
  rewrite seqZ_S, omap_app, IH by (intros k Hk; apply Hf; lia).
  cbn [omap list_omap app]. by rewrite Hf by lia.
Qed.

(** [a[i::scale]] for a list of [m * scale] entries: [m] entries, the
    [k]-th one is [a[i + k * scale]]. *)
Lemma getslice_step_phase {A} (a : list A) (i scale m : Z) :
  0 < scale → 0 <= i < scale → Z.of_nat (length a) = m * scale →
  length (getslice_step a i scale) = Z.to_nat m ∧
  ∀ k, 0 <= k < m →
    getslice_step a i scale !! Z.to_nat k = a !! Z.to_nat (i + k * scale).
Proof.
  intros Hs Hi Hlen. assert (Hm : 0 <= m) by nia.
  assert (Hmlen : m <= Z.of_nat (length a)) by nia.
  unfold getslice_step.
  replace (Z.of_nat (length a))
    with (Z.of_nat (Z.to_nat m) + Z.of_nat (Z.to_nat (Z.of_nat (length a) - m)))
    by lia.
  rewrite seqZ_app, omap_app by lia. rewrite Z.add_0_l.
  rewrite (omap_seqZ_None _ (Z.of_nat (Z.to_nat m))), app_nil_r.
  - destruct (omap_seqZ_Some (λ k, a !! Z.to_nat (i + k * scale)) (Z.to_nat m))
      as [Hl Hlook].
    { intros k Hk. apply lookup_lt_is_Some. nia. }
    split; [done|]. intros k Hk. rewrite Hlook by lia.
    by rewrite Z2Nat.id by lia.
  - intros k Hk. apply lookup_ge_None. nia.
Qed.

Lemma setslice_block {A} (pre rest b : list A) (lo hi : Z) :
  lo = Z.of_nat (length pre) → hi = lo + Z.of_nat (length b) →
  (length b <= length rest)%nat →
  setslice (pre ++ rest) lo hi b = Ok (pre ++ b ++ drop (length b) rest).
Proof.
  intros -> -> Hb.
  assert (Hlo : slice_bound (Z.of_nat (length (pre ++ rest)))
                  (Z.of_nat (length pre)) = Z.of_nat (length pre)).
  { unfold slice_bound. rewrite length_app, decide_False by lia. lia. }
  assert (Hhi : slice_bound (Z.of_nat (length (pre ++ rest)))
                  (Z.of_nat (length pre) + Z.of_nat (length b))
                = Z.of_nat (length pre) + Z.of_nat (length b)).
  { unfold slice_bound. rewrite length_app, decide_False by lia. lia. }
  unfold setslice. cbv zeta. rewrite Hlo, Hhi.
  replace (Z.to_nat (Z.of_nat (length pre) + Z.of_nat (length b)
                     - Z.of_nat (length pre))) with (length b) by lia.
  rewrite Nat2Z.id, decide_True by done.
  by rewrite take_app_length, drop_app_add.
Qed.

(** The loop over the phases writes them one behind the other. *)
Lemma demultiplex_loop {A} (minblep : list A) (scale m : Z) (k : nat) :
  0 < scale → Z.of_nat (length minblep) = m * scale → Z.of_nat k <= scale →
  let block i := Some <$> getslice_step minblep i scale in
  length (concat (block <$> seqZ 0 (Z.of_nat k))) = Z.to_nat (Z.of_nat k * m) ∧
  foldM (λ dm i, setslice dm (i * m) ((i + 1) * m) (block i))
    (replicate (Z.to_nat (m * scale)) None) (seqZ 0 (Z.of_nat k))
  = Ok (concat (block <$> seqZ 0 (Z.of_nat k))
        ++ replicate (Z.to_nat (m * (scale - Z.of_nat k))) None).
Proof.
  intros Hs Hlen Hk block. assert (Hm : 0 <= m) by nia.
  induction k as [|k IH].
  - change (seqZ 0 (Z.of_nat 0)) with (@nil Z). cbn [fmap list_fmap concat foldM app].
    split; [done|]. by rewrite Z.sub_0_r.
  - destruct IH as [IHlen IHfold]; [lia|].
    assert (Hblock : length (block (Z.of_nat k)) = Z.to_nat m).
    { unfold block. rewrite length_fmap.
      by apply (getslice_step_phase minblep (Z.of_nat k) scale m); [|lia|]. }
    assert (Hkm : 0 <= Z.of_nat k * m) by nia.
    rewrite seqZ_S, Z.add_0_l, fmap_app, concat_app.
    cbn [fmap list_fmap concat]. rewrite app_nil_r.
    split; [rewrite length_app, IHlen, Hblock; lia|].
    rewrite foldM_snoc, IHfold. cbn [mbind outcome_bind].
    rewrite setslice_block.
    + assert (Hc : (Z.to_nat (m * (scale - Z.of_nat k)) - Z.to_nat m)%nat
                   = Z.to_nat (m * (scale - Z.of_nat (S k)))) by nia.
      rewrite <- app_assoc, drop_replicate, Hblock, Hc. reflexivity.
    + transitivity (Z.of_nat (Z.to_nat (Z.of_nat k * m))); [lia|].
      apply (f_equal Z.of_nat). symmetry. exact IHlen.
    + transitivity (Z.of_nat k * m + Z.of_nat (Z.to_nat m)); [lia|].
      do 2 f_equal. symmetry. exact Hblock.
    + transitivity (Z.to_nat m); [by rewrite Hblock|].
      rewrite length_replicate. nia.
Qed.

Lemma demultiplex_Ok {A} (minblep : list A) (scale m : Z) :
  0 < scale → Z.of_nat (length minblep) = m * scale →
  MinBleps.demultiplex scale m minblep
  = Ok (concat ((λ i, Some <$> getslice_step minblep i scale) <$> seqZ 0 scale)).
Proof.
  intros Hs Hlen. unfold MinBleps.demultiplex, np_empty, np_full.
  rewrite decide_False by lia. cbn [mbind outcome_bind].
  destruct (demultiplex_loop minblep scale m (Z.to_nat scale) Hs Hlen) as [_ H];
    [lia|].
  rewrite Z2Nat.id in H by lia. rewrite Hlen, H.
  replace (m * (scale - scale)) with 0 by lia. by rewrite app_nil_r.
Qed.

(** The block of phase [i] in the concatenation of the phases. *)
Lemma phases_block {A} (minblep : list A) (scale m i : Z) :
  0 < scale → Z.of_nat (length minblep) = m * scale → 0 <= i < scale →
  let block i := Some <$> getslice_step minblep i scale in
  take (Z.to_nat m) (drop (Z.to_nat (i * m)) (concat (block <$> seqZ 0 scale)))
  = block i.
Proof.
  intros Hs Hlen Hi block. assert (Hm : 0 <= m) by nia.
  destruct (demultiplex_loop minblep scale m (Z.to_nat i) Hs Hlen) as [Hpre _];
    [lia|].
  rewrite Z2Nat.id in Hpre by lia. fold block in Hpre.
  assert (Hblock : length (block i) = Z.to_nat m).
  { unfold block. rewrite length_fmap.
    by apply (getslice_step_phase minblep i scale m). }
  assert (Hsplit : seqZ 0 scale
                   = seqZ 0 i ++ [i] ++ seqZ (i + 1) (scale - i - 1)).
  { transitivity (seqZ 0 (i + (1 + (scale - i - 1)))); [f_equal; lia|].
    rewrite seqZ_app, seqZ_app by lia. by rewrite Z.add_0_l. }
  rewrite Hsplit, !fmap_app, !concat_app.
  cbn [fmap list_fmap concat]. rewrite app_nil_r.
  rewrite drop_app_length' by done.
  by rewrite take_app_length' by done.
Qed.

Lemma length_phases {A} (minblep : list A) (scale m : Z) :
  0 < scale → Z.of_nat (length minblep) = m * scale →
  length (concat ((λ i, Some <$> getslice_step minblep i scale) <$> seqZ 0 scale))
  = length minblep.
Proof.
  intros Hs Hlen.
  destruct (demultiplex_loop minblep scale m (Z.to_nat scale) Hs Hlen) as [H _];
    [lia|].
  rewrite Z2Nat.id in H by lia. rewrite H. lia.
Qed.

(** ** The step table and its phases *)

Section StepTable.

Context {sample : Type} (zero one : sample).

Lemma step_table_Ok (scale : Z) (cumsum : list sample) :
  0 < scale →
  let ones := (- (scale - 1 + Z.of_nat (length cumsum))) mod scale in
  let minblep := replicate (Z.to_nat (scale - 1)) zero ++ cumsum
                 ++ replicate (Z.to_nat ones) one in
  MinBleps.step_table zero one scale cumsum
  = Ok (minblep, Z.of_nat (length minblep) / scale) ∧
  0 <= ones < scale ∧
  Z.of_nat (length minblep) = Z.of_nat (length minblep) / scale * scale.
Proof.
  intros Hs ones minblep.
  pose proof (Z.mod_pos_bound (- (scale - 1 + Z.of_nat (length cumsum))) scale Hs)
    as Hones. fold ones in Hones.
  assert (Hlen : Z.of_nat (length minblep)
                 = scale - 1 + Z.of_nat (length cumsum) + ones).
  { subst minblep. rewrite !length_app, !length_replicate. lia. }
  split; [|split; [done|]].
  - unfold MinBleps.step_table, np_full, pymod, floordiv.
    rewrite !decide_False by lia. cbn [mbind outcome_bind].
    rewrite length_app, length_replicate.
    replace (Z.of_nat (Z.to_nat (scale - 1) + length cumsum))
      with (scale - 1 + Z.of_nat (length cumsum)) by lia.
    fold ones. rewrite decide_False by lia. cbn [mbind outcome_bind].
    rewrite decide_False by lia. cbn [mbind outcome_bind].
    subst minblep. rewrite <- app_assoc, decide_False by lia. reflexivity.
  - assert (Hmod : Z.of_nat (length minblep) mod scale = 0).
    { rewrite Hlen. unfold ones.
      rewrite Zplus_mod_idemp_r.
      replace (scale - 1 + Z.of_nat (length cumsum)
               + - (scale - 1 + Z.of_nat (length cumsum))) with 0 by lia.
      apply Z.mod_0_l. lia. }
    pose proof (Z.div_mod (Z.of_nat (length minblep)) scale ltac:(lia)). lia.
Qed.

End StepTable.

(** ** The two queries, given what they read *)

Lemma getoutcount_Ok {sample} (self : @MinBleps.t sample) naivex naiven out0 out1 :
  let shift := (naivex + naiven) / MinBleps.naiverate self in
  MinBleps.naiverate self ≠ 0 →
  getitem (MinBleps.naivex2outx self) naivex = Ok out0 →
  getitem (MinBleps.naivex2outx self)
    (naivex + naiven - MinBleps.naiverate self * shift) = Ok out1 →
  MinBleps.getoutcount self naivex naiven
  = Ok (out1 - (out0 - MinBleps.outrate self * shift)).
Proof.
  intros shift Hr H0 H1. unfold MinBleps.getoutcount.
  rewrite H0. cbn [mbind outcome_bind].
  unfold floordiv. rewrite decide_False by done. cbn [mbind outcome_bind].
  fold shift. rewrite H1. reflexivity.
Qed.

Lemma getminnaiven_slot {sample} (self : @MinBleps.t sample) naivex outcount out0 slot :
  let shift := (out0 + outcount) / MinBleps.outrate self in
  MinBleps.outrate self ≠ 0 →
  getitem (MinBleps.naivex2outx self) naivex = Ok out0 →
  getitem (MinBleps.outx2minnaivex self)
    (out0 + outcount - MinBleps.outrate self * shift) = Ok slot →
  MinBleps.getminnaiven self naivex outcount
  = match slot with
    | Some m => Ok (m - (naivex - MinBleps.naiverate self * shift))
    | None => Unspecified
    end.
Proof.
  intros shift Hr H0 H1. unfold MinBleps.getminnaiven.
  rewrite H0. cbn [mbind outcome_bind].
  unfold floordiv. rewrite decide_False by done. cbn [mbind outcome_bind].
  fold shift. rewrite H1. cbn [mbind outcome_bind].
  destruct slot; reflexivity.
Qed.

Lemma getminnaiven_Ok {sample} (self : @MinBleps.t sample) naivex outcount out0 m :
  let shift := (out0 + outcount) / MinBleps.outrate self in
  MinBleps.outrate self ≠ 0 →
  getitem (MinBleps.naivex2outx self) naivex = Ok out0 →
  getitem (MinBleps.outx2minnaivex self)
    (out0 + outcount - MinBleps.outrate self * shift) = Ok (Some m) →
  MinBleps.getminnaiven self naivex outcount
  = Ok (m - (naivex - MinBleps.naiverate self * shift)).
Proof.
  intros shift Hr H0 H1.
  exact (getminnaiven_slot self naivex outcount out0 (Some m) Hr H0 H1).
Qed.

(** ** What a constructed table holds *)

Section Constructed.

Context {sample : Type} (zero one : sample).
Context (cumsum_minbli : Z → Z → Z → Z → list sample).

Lemma init_Ok_inv naiverate outrate scale rounded (self : MinBleps.t) :
  MinBleps.init zero one cumsum_minbli naiverate outrate scale rounded = Ok self →
  let kernelsize := MinBleps.kernelsize rounded scale in
  MinBleps.step_table zero one scale
    (cumsum_minbli (MinBleps.order rounded) scale kernelsize (MinBleps.size kernelsize))
    = Ok (MinBleps.minblep self, MinBleps.mixinsize self) ∧
  MinBleps.forward_maps naiverate outrate scale
    = Ok (MinBleps.naivex2outx self, MinBleps.naivex2shape self) ∧
  MinBleps.demultiplex scale (MinBleps.mixinsize self) (MinBleps.minblep self)
    = Ok (MinBleps.demultiplexed self) ∧
  arr_scalar Z.mul (MinBleps.naivex2shape self) (MinBleps.mixinsize self)
    = Ok (MinBleps.naivex2off self) ∧
  MinBleps.inverse_map naiverate outrate (MinBleps.naivex2outx self)
    = Ok (MinBleps.outx2minnaivex self) ∧
  MinBleps.naiverate self = naiverate ∧ MinBleps.outrate self = outrate.
Proof.
  intros H kernelsize. unfold MinBleps.init in H. fold kernelsize in H.
  apply bind_Ok in H as ([minblep mixinsize] & Hstep & H).
  apply bind_Ok in H as ([naivex2outx naivex2shape] & Hfwd & H).
  apply bind_Ok in H as (demultiplexed & Hdem & H).
  apply bind_Ok in H as (naivex2off & Hoff & H).
  apply bind_Ok in H as (outx2minnaivex & Hinv & H).
  injection H as <-. cbn. done.
Qed.

(** The index maps of a table that [create] built from positive rates. *)
Lemma create_maps naiverate outrate scaleornone rounded (self : MinBleps.t) :
  0 < naiverate → 0 < outrate →
  MinBleps.create zero one cumsum_minbli naiverate outrate scaleornone rounded
    = Ok self →
  let g := Z.gcd naiverate outrate in
  let s := naiverate / g in
  let d := outrate / g in
  MinBleps.naiverate self = naiverate ∧ MinBleps.outrate self = outrate ∧
  naiverate <= 2 ^ 31 ∧ fits_int32 s ∧ fits_int32 d ∧
  MinBleps.forward_maps naiverate outrate s
    = Ok (MinBleps.naivex2outx self, MinBleps.naivex2shape self) ∧
  MinBleps.inverse_map naiverate outrate (MinBleps.naivex2outx self)
    = Ok (MinBleps.outx2minnaivex self) ∧
  Z.of_nat (length (MinBleps.naivex2outx self)) = naiverate ∧
  (∀ n, 0 <= n < naiverate →
     getitem (MinBleps.naivex2outx self) n = Ok (outx_at d s n)) ∧
  Z.of_nat (length (MinBleps.outx2minnaivex self)) = outrate ∧
  (∀ j, 0 <= j < outrate →
     MinBleps.outx2minnaivex self !! Z.to_nat j
     = Some (first_hit (λ n, outx_at d s n mod outrate) j (Z.to_nat naiverate))).
Proof.
  intros Hn Ho H g s d. unfold MinBleps.create in H.
  apply bind_Ok in H as (scale & Hscale & H).
  apply resolvescale_Ok in Hscale; [|done]. fold g s in Hscale. subst scale.
  apply init_Ok_inv in H as (_ & Hfwd & _ & _ & Hinv & Hnr & Hor).
  pose proof Hfwd as (d' & Hd' & Hfd & Hfs & Ha & _)%forward_maps_Ok.
  apply dualscale_Ok in Hd' as [_ Hd']. fold g d in Hd'. subst d'.
  pose proof (inverse_map_fits _ _ _ _ Hn Hinv) as Hmax.
  assert (Hget : ∀ n, 0 <= n < naiverate →
            getitem (MinBleps.naivex2outx self) n = Ok (outx_at d s n)).
  { intros n Hi. rewrite Ha. by apply getitem_fmap_seqZ. }
  destruct (inverse_map_Ok naiverate outrate (MinBleps.naivex2outx self)
              (outx_at d s)) as (res & Hres & Hlen & Hlook).
  { lia. } { lia. } { done. }
  { intros n Hi. by apply outx_at_index. }
  rewrite Hres in Hinv. injection Hinv as ->.
  split; [done|]. split; [done|]. split; [done|]. split; [done|].
  split; [done|]. split; [done|]. split; [by rewrite Hres|].
  split; [rewrite Ha, length_fmap, length_seqZ; lia|].
  split; [done|]. split; done.
Qed.

Lemma create_shape naiverate outrate scaleornone rounded (self : MinBleps.t) n :
  0 < naiverate → 0 < outrate →
  MinBleps.create zero one cumsum_minbli naiverate outrate scaleornone rounded
    = Ok self →
  0 <= n < naiverate →
  let g := Z.gcd naiverate outrate in
  getitem (MinBleps.naivex2shape self) n
  = Ok (shape_at (outrate / g) (naiverate / g) n).
Proof.
  intros Hn Ho Hcreate Hi g.
  destruct (create_maps _ _ _ _ _ Hn Ho Hcreate)
    as (_ & _ & _ & _ & _ & Hfwd & _).
  apply forward_maps_Ok in Hfwd as (d' & Hd' & _ & _ & _ & Hsh).
  apply dualscale_Ok in Hd' as [_ ->]. rewrite Hsh.
  by apply getitem_fmap_seqZ.
Qed.

(** C4. On a table that [create] built from positive rates, every entry
    of [naivex2shape] lies in [[0, scale)]; when no product
    [n * dualscale] leaves the 32-bit range, [naivex2outx[n]] is
    [floor(n * dualscale / scale)] and [naivex2shape[n]] is
    [naivex2outx[n] * scale - n * dualscale + scale - 1]. *)
Theorem naivex2outx_naivex2shape_spec
    naiverate outrate scaleornone rounded (self : MinBleps.t) n :
  0 < naiverate → 0 < outrate →
  MinBleps.create zero one cumsum_minbli naiverate outrate scaleornone rounded
    = Ok self →
  0 <= n < naiverate →
  let dualscale := outrate / Z.gcd naiverate outrate in
  let scale := naiverate / Z.gcd naiverate outrate in
  (∃ shape, getitem (MinBleps.naivex2shape self) n = Ok shape ∧
            0 <= shape < scale) ∧
  (no_overflow naiverate outrate →
     getitem (MinBleps.naivex2outx self) n = Ok (n * dualscale / scale) ∧
     getitem (MinBleps.naivex2shape self) n
     = Ok (n * dualscale / scale * scale - n * dualscale + scale - 1)).
Proof.
  intros Hn Ho Hcreate Hi dualscale scale.
  pose proof (create_shape _ _ _ _ _ n Hn Ho Hcreate Hi) as Hshape.
  destruct (create_maps _ _ _ _ _ Hn Ho Hcreate)
    as (_ & _ & Hmax & Hfs & _ & _ & _ & _ & Hget & _).
  destruct (rates_scales naiverate outrate Hn Ho) as (_ & Hs & Hd & _).
  cbn zeta in Hshape, Hfs, Hget, Hs, Hd. fold dualscale scale in Hshape, Hfs, Hget, Hs, Hd.
  split.
  - exists (shape_at dualscale scale n). split; [done|].
    by apply shape_at_range.
  - intros Hno. unfold no_overflow in Hno. fold dualscale in Hno.
    clearbody dualscale scale.
    assert (n * dualscale <= (naiverate - 1) * dualscale)
      by (apply Z.mul_le_mono_nonneg_r; lia).
    rewrite Hget, Hshape by done.
    rewrite outx_at_exact, shape_at_exact by (try exact Hfs; lia). done.
Qed.

(** Without overflow both maps are given by the quotients. *)
Lemma create_maps_exact naiverate outrate scaleornone rounded (self : MinBleps.t) :
  0 < naiverate → 0 < outrate →
  MinBleps.create zero one cumsum_minbli naiverate outrate scaleornone rounded
    = Ok self →
  no_overflow naiverate outrate →
  let d := outrate / Z.gcd naiverate outrate in
  let s := naiverate / Z.gcd naiverate outrate in
  (∀ n, 0 <= n < naiverate → 0 <= n * d / s < outrate) ∧
  (∀ n, 0 <= n < naiverate →
     getitem (MinBleps.naivex2outx self) n = Ok (n * d / s)) ∧
  (∀ j, 0 <= j < outrate →
     getitem (MinBleps.outx2minnaivex self) j
     = Ok (first_hit (λ n, n * d / s) j (Z.to_nat naiverate))).
Proof.
  intros Hn Ho Hcreate Hno d s.
  destruct (create_maps _ _ _ _ _ Hn Ho Hcreate)
    as (_ & _ & Hmax & _ & _ & _ & _ & _ & Hget & Hlen & Hlook).
  destruct (rates_scales naiverate outrate Hn Ho) as (_ & Hs & Hd & _).
  cbn zeta in Hget, Hlook, Hs, Hd. unfold no_overflow in Hno.
  fold d s in Hget, Hlook, Hs, Hd, Hno.
  assert (Hrange : ∀ n, 0 <= n < naiverate → 0 <= n * d / s < outrate).
  { intros n Hi. subst d s. by apply outx_at_exact_range. }
  clearbody d s.
  assert (Hex : ∀ n, 0 <= n < naiverate → outx_at d s n = n * d / s).
  { intros n Hi. apply outx_at_exact; try lia.
    assert (n * d <= (naiverate - 1) * d)
      by (apply Z.mul_le_mono_nonneg_r; lia). lia. }
  split; [done|]. split.
  - intros n Hi. rewrite Hget by done. by rewrite Hex.
  - intros j Hj. apply getitem_Z; [lia|].
    rewrite Hlen, Z.mod_small, Hlook by done. f_equal.
    apply first_hit_ext. intros n Hi.
    rewrite Hex by lia. apply Z.mod_small, Hrange. lia.
Qed.

(** C3. On a table that [create] built from positive rates whose
    products [n * dualscale] stay in the 32-bit range, for every [n] in
    [[0, naiverate)] the entry [naivex2outx[n]] is read back:
    [naivex2outx[outx2minnaivex[naivex2outx[n]]] = naivex2outx[n]]. *)
Theorem roundtrip_naivex2outx
    naiverate outrate scaleornone rounded (self : MinBleps.t) n :
  0 < naiverate → 0 < outrate →
  MinBleps.create zero one cumsum_minbli naiverate outrate scaleornone rounded
    = Ok self →
  no_overflow naiverate outrate →
  0 <= n < naiverate →
  ∃ outx,
    getitem (MinBleps.naivex2outx self) n = Ok outx ∧
    roundtrip (MinBleps.naivex2outx self) (MinBleps.outx2minnaivex self) n
    = Ok outx.
Proof.
  intros Hn Ho Hcreate Hno Hi.
  destruct (create_maps_exact _ _ _ _ _ Hn Ho Hcreate Hno)
    as (Hrange & Hget & Hinv).
  set (d := outrate / Z.gcd naiverate outrate) in *.
  set (s := naiverate / Z.gcd naiverate outrate) in *.
  clearbody d s.
  destruct (first_hit_hit (λ n, n * d / s) (n * d / s) (Z.to_nat naiverate) n)
    as (m & Hm & Hmn & Hgm); [lia|done|].
  exists (n * d / s). split; [by apply Hget|].
  unfold roundtrip. rewrite Hget by done. cbn [mbind outcome_bind].
  rewrite Hinv by (by apply Hrange). rewrite Hm.
  cbn [mbind outcome_bind initialised].
  rewrite Hget by lia. by rewrite Hgm.
Qed.

(** C5. On a table that [create] built from positive rates whose
    products [n * dualscale] stay in the 32-bit range, for every output
    index [o = naivex2outx[n]] the entry [outx2minnaivex[o]] was written,
    and it is the smallest naive index that [naivex2outx] maps to [o]. *)
Theorem outx2minnaivex_smallest
    naiverate outrate scaleornone rounded (self : MinBleps.t) n :
  0 < naiverate → 0 < outrate →
  MinBleps.create zero one cumsum_minbli naiverate outrate scaleornone rounded
    = Ok self →
  no_overflow naiverate outrate →
  0 <= n < naiverate →
  ∃ o m,
    getitem (MinBleps.naivex2outx self) n = Ok o ∧
    getitem (MinBleps.outx2minnaivex self) o = Ok (Some m) ∧
    0 <= m <= n ∧
    getitem (MinBleps.naivex2outx self) m = Ok o ∧
    ∀ n', 0 <= n' < m → getitem (MinBleps.naivex2outx self) n' ≠ Ok o.
Proof.
  intros Hn Ho Hcreate Hno Hi.
  destruct (create_maps_exact _ _ _ _ _ Hn Ho Hcreate Hno)
    as (Hrange & Hget & Hinv).
  set (d := outrate / Z.gcd naiverate outrate) in *.
  set (s := naiverate / Z.gcd naiverate outrate) in *.
  clearbody d s.
  destruct (first_hit (λ n, n * d / s) (n * d / s) (Z.to_nat naiverate))
    as [m|] eqn:Hm.
  - pose proof Hm as (Hmk & Hgm & Hmin)%first_hit_Some.
    assert (m <= n).
    { destruct (decide (m <= n)); [done|]. exfalso. apply (Hmin n); [lia|done]. }
    exists (n * d / s), m. split; [by apply Hget|].
    split; [rewrite Hinv by (by apply Hrange); by rewrite Hm|].
    split; [lia|]. split; [rewrite Hget by lia; by rewrite Hgm|].
    intros n' Hn'. rewrite Hget by lia. intros [= E]. by apply (Hmin n').
  - exfalso. apply (proj1 (first_hit_None _ _ _) Hm n); [lia|done].
Qed.

(** C6. [outx2minnaivex] is allocated by [np.empty].  On a table that
    [create] built from positive rates whose products [n * dualscale]
    stay in the 32-bit range, an entry [j] was written exactly when [j]
    is [floor(n * dualscale / scale)] for a naive index [n]; every entry
    was written exactly when [outrate <= naiverate]; and
    [getminnaiven(naivex, outcount)] reads a slot that nothing wrote
    exactly when [(naivex2outx[naivex] + outcount) mod outrate] is not
    such a quotient. *)
Theorem outx2minnaivex_written
    naiverate outrate scaleornone rounded (self : MinBleps.t) :
  0 < naiverate → 0 < outrate →
  MinBleps.create zero one cumsum_minbli naiverate outrate scaleornone rounded
    = Ok self →
  no_overflow naiverate outrate →
  let dualscale := outrate / Z.gcd naiverate outrate in
  let scale := naiverate / Z.gcd naiverate outrate in
  let hit j := ∃ n, 0 <= n < naiverate ∧ n * dualscale / scale = j in
  (∀ j, 0 <= j < outrate →
     ∃ slot, getitem (MinBleps.outx2minnaivex self) j = Ok slot ∧
             (is_Some slot ↔ hit j)) ∧
  ((∀ j, 0 <= j < outrate →
      ∃ m, getitem (MinBleps.outx2minnaivex self) j = Ok (Some m))
   ↔ outrate <= naiverate) ∧
  (∀ naivex outcount, 0 <= naivex < naiverate →
     MinBleps.getminnaiven self naivex outcount = Unspecified
     ↔ ¬ hit ((naivex * dualscale / scale + outcount) mod outrate)).
Proof.
  intros Hn Ho Hcreate Hno dualscale scale hit.
  destruct (create_maps_exact _ _ _ _ _ Hn Ho Hcreate Hno)
    as (Hrange & Hget & Hinv).
  destruct (create_maps _ _ _ _ _ Hn Ho Hcreate) as (Hnr & Hor & _).
  destruct (rates_scales naiverate outrate Hn Ho)
    as (Hg & Hs & Hd & Hns & Hod & Hlcm).
  cbn zeta in Hrange, Hget, Hinv, Hs, Hd, Hns, Hod, Hlcm.
  fold dualscale scale in Hrange, Hget, Hinv, Hs, Hd, Hns, Hod, Hlcm.
  set (g := Z.gcd naiverate outrate) in *.
  clearbody dualscale scale g.
  assert (Hslot : ∀ j, is_Some (first_hit (λ n, n * dualscale / scale) j
                                  (Z.to_nat naiverate)) ↔ hit j).
  { intros j. split.
    - intros [m (Hm & Hgm & _)%first_hit_Some]. exists m. split; [lia|done].
    - intros (n & Hi & Hgn).
      destruct (first_hit_hit (λ n, n * dualscale / scale) j
                  (Z.to_nat naiverate) n) as (m & Hm & _); [lia|done|].
      rewrite Hm. by eexists. }
  split; [|split].
  - intros j Hj. eexists. split; [by apply Hinv|]. apply Hslot.
  - split.
    + intros Hall. destruct (decide (outrate <= naiverate)) as [|Hlt]; [done|].
      exfalso. destruct (Hall (outrate - 1)) as (m & Hm); [lia|].
      rewrite Hinv in Hm by lia. injection Hm as Hm.
      apply first_hit_Some in Hm as (Hmk & Hgm & _).
      apply (quotient_misses_last scale dualscale naiverate outrate m);
        [nia|done|lia|done].
    + intros Hle j Hj.
      destruct (quotient_onto scale dualscale naiverate outrate j)
        as (n & Hi & Hgn); [nia|done|done|].
      destruct (first_hit_hit (λ n, n * dualscale / scale) j
                  (Z.to_nat naiverate) n) as (m & Hm & _); [lia|done|].
      exists m. rewrite Hinv by done. by rewrite Hm.
  - intros naivex outcount Hx.
    pose proof (Z.mod_pos_bound (naivex * dualscale / scale + outcount)
                  outrate Ho) as Hj.
    rewrite (getminnaiven_slot self naivex outcount
               (naivex * dualscale / scale)
               (first_hit (λ n, n * dualscale / scale)
                  ((naivex * dualscale / scale + outcount) mod outrate)
                  (Z.to_nat naiverate))).
    + rewrite <- Hslot.
      destruct (first_hit _ _ _) as [m|]; split.
      * done.
      * intros Hnot. exfalso. apply Hnot. by eexists.
      * intros _ [? [=]].
      * done.
    + lia.
    + by apply Hget.
    + rewrite Hor, <- Z.mod_eq by lia. by apply Hinv.
Qed.

(** C1. On a table that [create] built from positive rates, for every
    [naivex] in [[0, naiverate)] and every [naiven >= 0] both queries
    return, and [getminnaiven(naivex, getoutcount(naivex, naiven))] is at
    most [naiven]. *)
Theorem getminnaiven_getoutcount_le
    naiverate outrate scaleornone rounded (self : MinBleps.t) naivex naiven :
  0 < naiverate → 0 < outrate →
  MinBleps.create zero one cumsum_minbli naiverate outrate scaleornone rounded
    = Ok self →
  0 <= naivex < naiverate → 0 <= naiven →
  ∃ outcount minnaiven,
    MinBleps.getoutcount self naivex naiven = Ok outcount ∧
    MinBleps.getminnaiven self naivex outcount = Ok minnaiven ∧
    minnaiven <= naiven.
Proof.
  intros Hn Ho Hcreate Hx HN.
  destruct (create_maps _ _ _ _ _ Hn Ho Hcreate)
    as (Hnr & Hor & Hmax & _ & _ & _ & _ & _ & Hget & Hlen & Hlook).
  set (g := Z.gcd naiverate outrate) in *.
  set (f := outx_at (outrate / g) (naiverate / g)) in *.
  assert (Hidx : ∀ n, 0 <= n < naiverate → - outrate <= f n < outrate).
  { intros n Hi. subst f g. by apply outx_at_index. }
  clearbody f. clear Hcreate. clearbody g.
  set (shift := (naivex + naiven) / naiverate).
  set (n' := naivex + naiven - naiverate * shift).
  assert (Hn' : 0 <= n' < naiverate).
  { subst n' shift. pose proof (Z.div_mod (naivex + naiven) naiverate).
    pose proof (Z.mod_pos_bound (naivex + naiven) naiverate). lia. }
  pose proof (Hidx n' Hn') as Hf'.
  destruct (first_hit_hit (λ n, f n mod outrate) (f n' mod outrate)
              (Z.to_nat naiverate) n') as (m & Hm & Hmn & _); [lia|done|].
  exists (f n' - (f naivex - outrate * shift)), (m - (naivex - naiverate * (f n' / outrate + shift))).
  assert (Hshift2 : (f naivex + (f n' - (f naivex - outrate * shift))) / outrate
                    = f n' / outrate + shift).
  { replace (f naivex + (f n' - (f naivex - outrate * shift)))
      with (f n' + shift * outrate) by lia.
    apply Z.div_add. lia. }
  split; [|split].
  - rewrite (getoutcount_Ok self naivex naiven (f naivex) (f n')).
    + rewrite Hnr, Hor. reflexivity.
    + lia.
    + by apply Hget.
    + rewrite Hnr. by apply Hget.
  - pose proof (Z.mod_pos_bound (f n') outrate Ho) as Hslot.
    rewrite (getminnaiven_Ok self naivex _ (f naivex) m).
    + rewrite Hnr, Hor, Hshift2. reflexivity.
    + lia.
    + by apply Hget.
    + rewrite Hor, Hshift2.
      replace (f naivex + (f n' - (f naivex - outrate * shift))
               - outrate * (f n' / outrate + shift))
        with (f n' mod outrate)
        by (pose proof (Z.div_mod (f n') outrate); lia).
      apply getitem_Z; [lia|].
      rewrite Hlen, Z.mod_mod by lia. rewrite Hlook by done.
      f_equal. exact Hm.
  - assert (f n' / outrate <= 0).
    { assert (f n' / outrate < 1); [|lia].
      apply Z.div_lt_upper_bound; lia. }
    subst n'. nia.
Qed.

End Constructed.

Lemma example_4_6_created :
  MinBleps.create 0 1 example_cumsum 4 6 None 1 = Ok example_4_6.
Proof. vm_compute. reflexivity. Qed.

Lemma getminnaiven_getoutcount_le_witness :
  ∃ outcount minnaiven,
    MinBleps.getoutcount example_4_6 3 7 = Ok outcount ∧
    MinBleps.getminnaiven example_4_6 3 outcount = Ok minnaiven ∧
    minnaiven <= 7.
Proof.
  apply (getminnaiven_getoutcount_le 0 1 example_cumsum 4 6 None 1);
    [lia | lia | vm_compute; reflexivity | lia | lia].
Defined.

Lemma naivex2outx_naivex2shape_spec_witness :
  (∃ shape, getitem (MinBleps.naivex2shape example_4_6) 2 = Ok shape ∧
            0 <= shape < 2) ∧
  (no_overflow 4 6 →
     getitem (MinBleps.naivex2outx example_4_6) 2 = Ok 3 ∧
     getitem (MinBleps.naivex2shape example_4_6) 2 = Ok 1).
Proof.
  apply (naivex2outx_naivex2shape_spec 0 1 example_cumsum 4 6 None 1);
    [lia | lia | vm_compute; reflexivity | lia].
Defined.

(** The rates 46341 and 46342 are coprime, and [46340 * 46342] is above
    [2 ^ 31]: the last entry of [naivex2outx] is negative. *)
Lemma naivex2outx_floor_counterexample :
  ∃ a sh,
    MinBleps.resolvescale 46341 46342 None = Ok 46341 ∧
    MinBleps.dualscale 46341 46342 = Ok 46342 ∧
    MinBleps.forward_maps 46341 46342 46341 = Ok (a, sh) ∧
    getitem a 46340 = Ok (-46341) ∧
    46340 * 46342 / 46341 = 46340.
Proof.
  exists (outx_at 46342 46341 <$> seqZ 0 46341),
         (shape_at 46342 46341 <$> seqZ 0 46341).
  split; [vm_compute; reflexivity|]. split; [vm_compute; reflexivity|].
  split; [|split].
  - apply forward_maps_Ok. exists 46342.
    split; [vm_compute; reflexivity|].
    split; [unfold fits_int32; lia|]. split; [unfold fits_int32; lia|].
    split; reflexivity.
  - rewrite getitem_fmap_seqZ by lia. vm_compute. reflexivity.
  - vm_compute. reflexivity.
Qed.

Lemma roundtrip_naivex2outx_witness :
  ∃ outx,
    getitem (MinBleps.naivex2outx example_4_6) 2 = Ok outx ∧
    roundtrip (MinBleps.naivex2outx example_4_6)
      (MinBleps.outx2minnaivex example_4_6) 2 = Ok outx.
Proof.
  apply (roundtrip_naivex2outx 0 1 example_cumsum 4 6 None 1);
    [lia | lia | vm_compute; reflexivity | vm_compute; reflexivity | lia].
Defined.

Lemma outx2minnaivex_smallest_witness :
  ∃ o m,
    getitem (MinBleps.naivex2outx example_4_6) 3 = Ok o ∧
    getitem (MinBleps.outx2minnaivex example_4_6) o = Ok (Some m) ∧
    0 <= m <= 3 ∧
    getitem (MinBleps.naivex2outx example_4_6) m = Ok o ∧
    ∀ n', 0 <= n' < m → getitem (MinBleps.naivex2outx example_4_6) n' ≠ Ok o.
Proof.
  apply (outx2minnaivex_smallest 0 1 example_cumsum 4 6 None 1);
    [lia | lia | vm_compute; reflexivity | vm_compute; reflexivity | lia].
Defined.

(** The maps of the rates 46341 and 46342: the entry [-46341] of
    [naivex2outx] addresses slot 1 of [outx2minnaivex] from the end, and
    that slot holds the naive index 1. *)
Lemma maps_46341_46342 :
  ∃ a sh o,
    MinBleps.forward_maps 46341 46342 46341 = Ok (a, sh) ∧
    MinBleps.inverse_map 46341 46342 a = Ok o ∧
    getitem a 46340 = Ok (-46341) ∧
    getitem o (-46341) = Ok (Some 1) ∧
    getitem a 1 = Ok 1.
Proof.
  assert (Hg : Z.gcd 46341 46342 = 1) by (vm_compute; reflexivity).
  destruct (index_maps_Ok 46341 46342) as (o & Hfwd & Hinv & Hlen & Hlook);
    [lia|lia|].
  cbn zeta in Hfwd, Hinv, Hlook. rewrite Hg, !Z.div_1_r in Hfwd, Hinv, Hlook.
  eexists _, _, o. split; [exact Hfwd|]. split; [exact Hinv|].
  split; [|split].
  - rewrite getitem_fmap_seqZ by lia. vm_compute. reflexivity.
  - apply getitem_Z; [lia|]. rewrite Hlen.
    replace (-46341 mod 46342) with 1 by (vm_compute; reflexivity).
    rewrite Hlook by lia. apply (f_equal Some), first_hit_Some.
    split; [lia|]. split; [vm_compute; reflexivity|].
    intros n Hn. assert (n = 0) as -> by lia. vm_compute. discriminate.
  - rewrite getitem_fmap_seqZ by lia. vm_compute. reflexivity.
Qed.

Lemma roundtrip_counterexample :
  ∃ a sh o,
    MinBleps.resolvescale 46341 46342 None = Ok 46341 ∧
    MinBleps.forward_maps 46341 46342 46341 = Ok (a, sh) ∧
    MinBleps.inverse_map 46341 46342 a = Ok o ∧
    getitem a 46340 = Ok (-46341) ∧
    roundtrip a o 46340 = Ok 1.
Proof.
  destruct maps_46341_46342 as (a & sh & o & Hfwd & Hinv & Hlast & Hslot & Hone).
  exists a, sh, o. split; [vm_compute; reflexivity|].
  split; [done|]. split; [done|]. split; [done|].
  unfold roundtrip. rewrite Hlast. cbn [mbind outcome_bind].
  rewrite Hslot. cbn [mbind outcome_bind initialised]. exact Hone.
Qed.

Lemma outx2minnaivex_smallest_counterexample :
  ∃ a sh o,
    MinBleps.resolvescale 46341 46342 None = Ok 46341 ∧
    MinBleps.forward_maps 46341 46342 46341 = Ok (a, sh) ∧
    MinBleps.inverse_map 46341 46342 a = Ok o ∧
    getitem a 46340 = Ok (-46341) ∧
    getitem o (-46341) = Ok (Some 1) ∧
    getitem a 1 ≠ Ok (-46341).
Proof.
  destruct maps_46341_46342 as (a & sh & o & Hfwd & Hinv & Hlast & Hslot & Hone).
  exists a, sh, o. split; [vm_compute; reflexivity|].
  split; [done|]. split; [done|]. split; [done|]. split; [done|].
  rewrite Hone. discriminate.
Qed.

Lemma outx2minnaivex_written_witness :
  MinBleps.getminnaiven example_4_6 3 1 = Unspecified
  ↔ ¬ ∃ n, 0 <= n < 4 ∧ n * 3 / 2 = 5.
Proof.
  destruct (outx2minnaivex_written 0 1 example_cumsum 4 6 None 1 example_4_6)
    as (_ & _ & H);
    [lia | lia | vm_compute; reflexivity | vm_compute; reflexivity |].
  apply (H 3 1). lia.
Defined.

(** The rates 46342 and 46341: [46341 * 46341] is above [2 ^ 31], the
    last naive index is sent to slot 1, and slot 46340 stays unwritten
    although [naiverate >= outrate]. *)
Lemma outx2minnaivex_written_counterexample :
  ∃ a sh o,
    MinBleps.resolvescale 46342 46341 None = Ok 46342 ∧
    MinBleps.forward_maps 46342 46341 46342 = Ok (a, sh) ∧
    MinBleps.inverse_map 46342 46341 a = Ok o ∧
    46341 <= 46342 ∧
    getitem a 46341 = Ok (-46340) ∧
    getitem o 46340 = Ok None.
Proof.
  assert (Hg : Z.gcd 46342 46341 = 1) by (vm_compute; reflexivity).
  destruct (index_maps_Ok 46342 46341) as (o & Hfwd & Hinv & Hlen & Hlook);
    [lia|lia|].
  cbn zeta in Hfwd, Hinv, Hlook. rewrite Hg, !Z.div_1_r in Hfwd, Hinv, Hlook.
  eexists _, _, o. split; [vm_compute; reflexivity|].
  split; [exact Hfwd|]. split; [exact Hinv|]. split; [lia|].
  split.
  - rewrite getitem_fmap_seqZ by lia. vm_compute. reflexivity.
  - apply getitem_Z; [lia|]. rewrite Hlen.
    rewrite Z.mod_small, Hlook by lia. apply (f_equal Some), first_hit_None.
    intros n Hn. destruct (decide (n = 46341)) as [->|Hne].
    + vm_compute. discriminate.
    + rewrite outx_at_exact by lia.
      assert (0 <= n * 46341 / 46342) by (apply Z.div_pos; lia).
      assert (n * 46341 / 46342 < 46340)
        by (apply Z.div_lt_upper_bound; lia).
      rewrite Z.mod_small by lia. lia.
Qed.

(** C2. For positive rates [resolvescale] returns the ideal scale
    [naiverate / gcd(naiverate, outrate)] (an exact quotient) when no scale
    is requested or the requested one is the ideal one, and raises the
    error that carries the requested and the ideal value when another
    scale is requested; [resolvescale(4, 6, 3)] raises and
    [resolvescale(4, 6, 2)] returns 2. *)
Theorem resolvescale_spec (naiverate outrate : Z) (scaleornone : option Z) :
  0 < naiverate → 0 < outrate →
  let ideal := naiverate / Z.gcd naiverate outrate in
  ideal * Z.gcd naiverate outrate = naiverate ∧
  (scaleornone = None ∨ scaleornone = Some ideal →
     MinBleps.resolvescale naiverate outrate scaleornone = Ok ideal) ∧
  (∀ scale, scaleornone = Some scale → scale ≠ ideal →
     MinBleps.resolvescale naiverate outrate scaleornone
       = Raise (ScaleError scale ideal)) ∧
  MinBleps.resolvescale 4 6 (Some 3) = Raise (ScaleError 3 2) ∧
  MinBleps.resolvescale 4 6 (Some 2) = Ok 2.
Proof.
  intros Hn Ho ideal.
  pose proof (gcd_pos_l naiverate outrate Hn) as Hg.
  assert (Hres : ∀ s, MinBleps.resolvescale naiverate outrate s =
    match s with
    | Some scale => if decide (scale ≠ ideal) then Raise (ScaleError scale ideal)
                    else Ok ideal
    | None => Ok ideal
    end).
  { intros s. unfold MinBleps.resolvescale, floordiv.
    destruct (decide (Z.gcd naiverate outrate = 0)); [lia|]. reflexivity. }
  split; [|split; [|split; [|split]]].
  - destruct (Z.gcd_divide_l naiverate outrate) as [q Hq].
    subst ideal. rewrite Hq at 1. rewrite Z.div_mul by lia. lia.
  - intros [-> | ->]; rewrite Hres; [done|].
    destruct (decide (ideal ≠ ideal)); [contradiction | done].
  - intros scale -> Hne. rewrite Hres.
    destruct (decide (scale ≠ ideal)); [done | contradiction].
  - reflexivity.
  - reflexivity.
Qed.

Lemma resolvescale_spec_witness :
  MinBleps.resolvescale 44100 48000 None = Ok 147.
Proof.
  destruct (resolvescale_spec 44100 48000 None) as (_ & H & _); [lia | lia |].
  apply H. left. reflexivity.
Defined.

(** * The queries on a constructed table *)

Section Queries.

Context {sample : Type} (zero one : sample).
Context (cumsum_minbli : Z → Z → Z → Z → list sample).









(** X5. A naive index outside [[-naiverate, naiverate)] is refused: both
    queries raise [IndexError] for it. *)
Theorem queries_index_error
    naiverate outrate scaleornone rounded (self : MinBleps.t) naivex n :
  0 < naiverate → 0 < outrate →
  MinBleps.create zero one cumsum_minbli naiverate outrate scaleornone rounded
    = Ok self →
  naivex < - naiverate ∨ naiverate <= naivex →
  MinBleps.getoutcount self naivex n = Raise (IndexError naivex) ∧
  MinBleps.getminnaiven self naivex n = Raise (IndexError naivex).
Proof.
  intros Hn Ho Hcreate Hx.
  destruct (create_maps _ _ _ _ _ _ _ _ Hn Ho Hcreate)
    as (_ & _ & _ & _ & _ & _ & _ & Hlen & _).
  unfold MinBleps.getoutcount, MinBleps.getminnaiven.
  rewrite getitem_out_of_range by (rewrite Hlen; lia). done.
Qed.


End Queries.





Lemma queries_index_error_witness :
  MinBleps.getoutcount example_4_6 4 1 = Raise (IndexError 4) ∧
  MinBleps.getminnaiven example_4_6 4 1 = Raise (IndexError 4).
Proof.
  apply (queries_index_error 0 1 example_cumsum 4 6 None 1);
    [lia | lia | vm_compute; reflexivity | lia].
Defined.


(** * Construction *)

(** X7. The two scales are the rates in lowest terms: for positive rates
    [scale * outrate = dualscale * naiverate], both scales are positive
    and they are coprime. *)
Theorem scales_lowest_terms naiverate outrate scale dualscale :
  0 < naiverate → 0 < outrate →
  MinBleps.resolvescale naiverate outrate None = Ok scale →
  MinBleps.dualscale naiverate outrate = Ok dualscale →
  scale * outrate = dualscale * naiverate ∧
  0 < scale ∧ 0 < dualscale ∧ Z.gcd scale dualscale = 1.
Proof.
  intros Hn Ho Hs Hd.
  apply resolvescale_Ok in Hs; [|done]. apply dualscale_Ok in Hd as [Hg ->].
  subst scale.
  destruct (rates_scales naiverate outrate Hn Ho) as (_ & Hs & Hd & _ & _ & Hl).
  cbv zeta in Hs, Hd, Hl.
  split; [lia|]. split; [done|]. split; [done|].
  by apply Z.gcd_div_gcd.
Qed.

Lemma scales_lowest_terms_witness :
  147 * 48000 = 160 * 44100 ∧ 0 < 147 ∧ 0 < 160 ∧ Z.gcd 147 160 = 1.
Proof.
  apply (scales_lowest_terms 44100 48000 147 160);
    [lia | lia | vm_compute; reflexivity | vm_compute; reflexivity].
Defined.

(** X8. For rates that are not negative, [resolvescale] divides by zero
    exactly when both rates are zero. *)
Theorem resolvescale_zero_division naiverate outrate scaleornone :
  0 <= naiverate → 0 <= outrate →
  MinBleps.resolvescale naiverate outrate scaleornone = Raise ZeroDivisionError
  ↔ naiverate = 0 ∧ outrate = 0.
Proof.
  intros Hn Ho. unfold MinBleps.resolvescale, floordiv.
  destruct (decide (Z.gcd naiverate outrate = 0)) as [E|E].
  - cbn [mbind outcome_bind]. split; [|done]. intros _.
    by apply Z.gcd_eq_0.
  - cbn [mbind outcome_bind]. split.
    + destruct scaleornone as [scale|]; [|done].
      by destruct (decide (scale ≠ naiverate / Z.gcd naiverate outrate)).
    + intros [-> ->]. by destruct E.
Qed.

Lemma resolvescale_zero_division_witness :
  MinBleps.resolvescale 0 0 (Some 1) = Raise ZeroDivisionError ↔ 0 = 0 ∧ 0 = 0.
Proof. apply (resolvescale_zero_division 0 0 (Some 1)); lia. Defined.

(** X9. The sizing loop returns for every [kernelsize]; [size] is a
    power of two, at least [kernelsize], and no smaller power of two is;
    for [kernelsize <= 1] it is 1. *)
Theorem size_least_power_of_two kernelsize :
  ∃ k, 0 <= k ∧
       MinBleps.grow_size (Z.to_nat kernelsize) (2 ^ 0) kernelsize = Some (2 ^ k) ∧
       MinBleps.size kernelsize = 2 ^ k ∧
       kernelsize <= 2 ^ k ∧
       (∀ j, 0 <= j → kernelsize <= 2 ^ j → 2 ^ k <= 2 ^ j) ∧
       (kernelsize <= 1 → k = 0).
Proof.
  destruct (grow_size_spec kernelsize (Z.to_nat kernelsize) 0)
    as (k & Hk & Hres & Hle & Hmin); [lia|change (2 ^ 0) with 1; lia|by left|].
  exists k. split; [done|]. split; [done|].
  split; [unfold MinBleps.size; by rewrite Hres|]. split; [done|].
  split.
  - intros j Hj Hks. destruct Hmin as [->|Hmin].
    + change (2 ^ 0) with 1. pose proof (Z.pow_pos_nonneg 2 j ltac:(lia) Hj). lia.
    + apply Z.pow_le_mono_r; [lia|].
      destruct (decide (k <= j)); [done|]. exfalso.
      assert (2 ^ j <= 2 ^ (k - 1)) by (apply Z.pow_le_mono_r; lia). lia.
  - intros Hone. destruct Hmin as [->|Hmin]; [done|].
    destruct (decide (k = 0)) as [->|]; [done|].
    pose proof (Z.pow_pos_nonneg 2 (k - 1) ltac:(lia) ltac:(lia)). lia.
Qed.

(** X10. For a positive [rounded] and a positive [scale] the padded
    kernel has exactly [size] samples and its centre is at [midpoint];
    when [rounded * scale] is zero it has one sample more than [size]. *)
Theorem padding_fills_size rounded scale :
  let kernelsize := MinBleps.kernelsize rounded scale in
  let size := MinBleps.size kernelsize in
  let lpad := MinBleps.lpad size kernelsize in
  let rpad := MinBleps.rpad size kernelsize in
  (1 <= rounded → 1 <= scale →
     0 <= rpad ∧ lpad + kernelsize + rpad = size ∧
     lpad + (kernelsize - 1) / 2 = MinBleps.midpoint size) ∧
  (rounded * scale = 0 → lpad + kernelsize + rpad = size + 1).
Proof.
  intros kernelsize size lpad rpad.
  destruct (size_least_power_of_two kernelsize)
    as (k & Hk & _ & Hsize & Hle & _ & Hone).
  fold size in Hsize.
  assert (Hks : kernelsize = 2 * (rounded * scale) + 1).
  { unfold kernelsize, MinBleps.kernelsize, MinBleps.order. lia. }
  unfold lpad, rpad, MinBleps.lpad, MinBleps.rpad, MinBleps.midpoint.
  clearbody kernelsize size. clear lpad rpad. split.
  - intros Hr Hs. assert (1 <= rounded * scale) by nia.
    assert (Hk1 : 1 <= k).
    { destruct (decide (k = 0)) as [->|]; [|lia].
      change (2 ^ 0) with 1 in Hle. lia. }
    assert (Heven : size = 2 * 2 ^ (k - 1)).
    { rewrite Hsize, <- Z.pow_succ_r by lia. f_equal. lia. }
    set (h := 2 ^ (k - 1)) in *. clearbody h.
    assert (Hrp : (size - kernelsize) / 2 = h - rounded * scale - 1).
    { symmetry. apply Z.div_unique_pos with 1; lia. }
    assert (Hc : (kernelsize - 1) / 2 = rounded * scale).
    { symmetry. apply Z.div_unique_pos with 0; lia. }
    assert (Hmid : size / 2 = h).
    { symmetry. apply Z.div_unique_pos with 0; lia. }
    rewrite Hrp, Hc, Hmid. lia.
  - intros Hzero. rewrite Hzero in Hks. subst kernelsize.
    rewrite Hone in Hsize by lia. subst size. reflexivity.
Qed.

Lemma padding_fills_size_witness :
  0 <= MinBleps.rpad 64 41 ∧
  MinBleps.lpad 64 41 + 41 + MinBleps.rpad 64 41 = 64 ∧
  MinBleps.lpad 64 41 + (41 - 1) / 2 = MinBleps.midpoint 64.
Proof.
  destruct (padding_fills_size 10 2) as [H _]. apply H; lia.
Defined.

Section Construction.

Context {sample : Type} (zero one : sample).
Context (cumsum_minbli : Z → Z → Z → Z → list sample).

(** The step table of a constructed table and what is derived from it. *)
Lemma create_table naiverate outrate scaleornone rounded (self : MinBleps.t) :
  0 < naiverate → 0 < outrate →
  MinBleps.create zero one cumsum_minbli naiverate outrate scaleornone rounded
    = Ok self →
  let scale := naiverate / Z.gcd naiverate outrate in
  Z.of_nat (length (MinBleps.minblep self)) = MinBleps.mixinsize self * scale ∧
  fits_int32 (MinBleps.mixinsize self) ∧
  MinBleps.demultiplexed self
  = concat ((λ i, Some <$> getslice_step (MinBleps.minblep self) i scale)
            <$> seqZ 0 scale) ∧
  MinBleps.naivex2off self
  = (λ x, wrap32 (x * MinBleps.mixinsize self)) <$> MinBleps.naivex2shape self.
Proof.
  intros Hn Ho H scale. unfold MinBleps.create in H.
  apply bind_Ok in H as (scale' & Hscale & H).
  apply resolvescale_Ok in Hscale; [|done]. fold scale in Hscale. subst scale'.
  apply (init_Ok_inv zero one cumsum_minbli) in H
    as (Hstep & _ & Hdem & Hoff & _). cbv zeta in Hstep.
  destruct (rates_scales naiverate outrate Hn Ho) as (_ & Hs & _).
  cbv zeta in Hs. fold scale in Hs.
  pose proof (step_table_Ok zero one scale
                (cumsum_minbli (MinBleps.order rounded) scale
                   (MinBleps.kernelsize rounded scale)
                   (MinBleps.size (MinBleps.kernelsize rounded scale))) Hs)
    as Hst.
  cbv zeta in Hst. destruct Hst as (Hst & _ & Hmul).
  rewrite Hstep in Hst. injection Hst as Hmin Hmix.
  rewrite <- Hmin in Hmix, Hmul. rewrite <- Hmix in Hmul.
  apply arr_scalar_Ok in Hoff as [Hfits Hoff].
  rewrite (demultiplex_Ok _ _ _ Hs Hmul) in Hdem. injection Hdem as Hdem.
  done.
Qed.

(** X11. With rates below [2 ^ 31] and a pipeline that returns fewer
    than [2 ^ 31 - 2] samples, [create] returns a table exactly when no
    scale or the ideal scale is requested, and raises the scale error
    otherwise; the value of [rounded], positive or not, plays no part. *)
Theorem create_outcome naiverate outrate scaleornone rounded :
  0 < naiverate < 2 ^ 31 → 0 < outrate < 2 ^ 31 →
  let ideal := naiverate / Z.gcd naiverate outrate in
  let kernelsize := MinBleps.kernelsize rounded ideal in
  Z.of_nat (length (cumsum_minbli (MinBleps.order rounded) ideal kernelsize
                      (MinBleps.size kernelsize))) < 2 ^ 31 - 2 →
  (scaleornone = None ∨ scaleornone = Some ideal →
     ∃ self,
       MinBleps.create zero one cumsum_minbli naiverate outrate scaleornone
         rounded = Ok self ∧
       MinBleps.naiverate self = naiverate ∧ MinBleps.outrate self = outrate ∧
       Z.of_nat (length (MinBleps.naivex2outx self)) = naiverate ∧
       Z.of_nat (length (MinBleps.outx2minnaivex self)) = outrate ∧
       length (MinBleps.demultiplexed self) = length (MinBleps.minblep self)) ∧
  (∀ scale, scaleornone = Some scale → scale ≠ ideal →
     MinBleps.create zero one cumsum_minbli naiverate outrate scaleornone
       rounded = Raise (ScaleError scale ideal)).
Proof.
  intros Hn Ho ideal kernelsize Hlen.
  pose proof (gcd_pos_l naiverate outrate ltac:(lia)) as Hg.
  assert (Hres : MinBleps.resolvescale naiverate outrate scaleornone
                 = match scaleornone with
                   | Some scale => if decide (scale ≠ ideal)
                                   then Raise (ScaleError scale ideal)
                                   else Ok ideal
                   | None => Ok ideal
                   end).
  { unfold MinBleps.resolvescale, floordiv.
    rewrite decide_False by lia. reflexivity. }
  split.
  - intros Hsc.
    assert (∃ self, MinBleps.create zero one cumsum_minbli naiverate outrate
                      scaleornone rounded = Ok self) as [self Hself].
    { unfold MinBleps.create. rewrite Hres.
      assert (Hideal : match scaleornone with
                       | Some scale => if decide (scale ≠ ideal)
                                       then Raise (ScaleError scale ideal)
                                       else Ok ideal
                       | None => Ok ideal
                       end = Ok ideal).
      { destruct Hsc as [-> | ->]; [done|].
        destruct (decide (ideal ≠ ideal)); [contradiction | done]. }
      rewrite Hideal. cbn [mbind outcome_bind].
      destruct (rates_scales naiverate outrate) as (_ & Hs & _ & Hns & _);
        [lia|lia|]. cbv zeta in Hs, Hns. fold ideal in Hs, Hns.
      pose proof (step_table_Ok zero one ideal
                    (cumsum_minbli (MinBleps.order rounded) ideal kernelsize
                       (MinBleps.size kernelsize)) Hs) as Hst.
      cbv zeta in Hst. destruct Hst as (Hst & Hones & Hmul).
      destruct (index_maps_Ok naiverate outrate) as (o & Hfwd & Hinv & _);
        [lia|lia|]. cbv zeta in Hfwd, Hinv. fold ideal in Hfwd, Hinv.
      unfold MinBleps.init. cbv zeta. fold kernelsize.
      rewrite Hst. cbn [mbind outcome_bind].
      rewrite Hfwd. cbn [mbind outcome_bind].
      rewrite (demultiplex_Ok _ _ _ Hs Hmul). cbn [mbind outcome_bind].
      unfold arr_scalar, int32_of_pyint. rewrite decide_True.
      + cbn [mbind outcome_bind]. rewrite Hinv. cbn [mbind outcome_bind].
        by eexists.
      + revert Hmul. rewrite !length_app, !length_replicate.
        set (m := _ / ideal). generalize m. clear m. intros m Hmul.
        set (len := length _) in *. clearbody len.
        set (ones := _ mod ideal) in *. clearbody ones.
        unfold fits_int32. split; [nia|].
        destruct (decide (m < Z.of_nat len + 2)); [lia|]. exfalso.
        assert ((Z.of_nat len + 2) * ideal <= m * ideal)
          by (apply Z.mul_le_mono_nonneg_r; lia). nia. }
    exists self. split; [done|].
    destruct (create_maps zero one cumsum_minbli _ _ _ _ _
                (proj1 Hn) (proj1 Ho) Hself)
      as (Hnr & Hor & _ & _ & _ & _ & _ & Hla & _ & Hlo & _).
    destruct (create_table _ _ _ _ _ (proj1 Hn) (proj1 Ho) Hself)
      as (Hmul & _ & Hdem & _).
    destruct (rates_scales naiverate outrate) as (_ & Hs & _); [lia|lia|].
    split; [done|]. split; [done|]. split; [done|]. split; [done|].
    rewrite Hdem. by apply (length_phases _ _ _ Hs Hmul).
  - intros scale -> Hne. unfold MinBleps.create. rewrite Hres.
    destruct (decide (scale ≠ ideal)); [done | contradiction].
Qed.

(** X12. The offsets of [naivex2off] address whole phases: on a table
    with fewer than [2 ^ 31] samples, [naivex2off[n]] is
    [naivex2shape[n] * mixinsize], the [mixinsize] entries of
    [demultiplexed] from there on are inside the array, and the [k]-th
    of them is [minblep[naivex2shape[n] + k * scale]]. *)
Theorem naivex2off_phase
    naiverate outrate scaleornone rounded (self : MinBleps.t) n :
  0 < naiverate → 0 < outrate →
  MinBleps.create zero one cumsum_minbli naiverate outrate scaleornone rounded
    = Ok self →
  Z.of_nat (length (MinBleps.minblep self)) < 2 ^ 31 →
  0 <= n < naiverate →
  let scale := naiverate / Z.gcd naiverate outrate in
  ∃ shape off,
    getitem (MinBleps.naivex2shape self) n = Ok shape ∧
    getitem (MinBleps.naivex2off self) n = Ok off ∧
    off = shape * MinBleps.mixinsize self ∧
    0 <= off ∧
    off + MinBleps.mixinsize self
    <= Z.of_nat (length (MinBleps.demultiplexed self)) ∧
    ∀ k, 0 <= k < MinBleps.mixinsize self →
      MinBleps.demultiplexed self !! Z.to_nat (off + k)
      = Some <$> MinBleps.minblep self !! Z.to_nat (shape + k * scale).
Proof.
  intros Hn Ho Hcreate Hsmall Hi scale.
  destruct (create_maps zero one cumsum_minbli _ _ _ _ _ Hn Ho Hcreate)
    as (_ & _ & _ & Hfs & _ & Hfwd & _).
  destruct (create_table _ _ _ _ _ Hn Ho Hcreate) as (Hmul & _ & Hdem & Hoff).
  destruct (rates_scales naiverate outrate Hn Ho) as (_ & Hs & _).
  cbv zeta in Hfs, Hfwd, Hmul, Hdem, Hs.
  apply forward_maps_Ok in Hfwd as (d & _ & _ & _ & _ & Hsh).
  fold scale in Hfs, Hmul, Hdem, Hs, Hsh.
  pose proof (shape_at_range d scale n Hs Hfs) as Hshape.
  set (shape := shape_at d scale n) in *.
  set (m := MinBleps.mixinsize self) in *.
  assert (Hm : 0 <= m) by nia.
  assert (Hprod : 0 <= shape * m) by nia.
  assert (Hend : shape * m + m <= m * scale) by nia.
  assert (Hl : length (MinBleps.demultiplexed self)
               = length (MinBleps.minblep self)).
  { rewrite Hdem. by apply (length_phases _ _ _ Hs Hmul). }
  exists shape, (shape * m).
  split; [rewrite Hsh; by apply getitem_fmap_seqZ|].
  split.
  { rewrite Hoff, Hsh, fmap_fmap, getitem_fmap_seqZ by done.
    fold shape. f_equal. apply wrap32_id. unfold fits_int32. lia. }
  split; [done|]. split; [done|]. split; [lia|].
  intros k Hk.
  pose proof (phases_block (MinBleps.minblep self) scale m shape Hs Hmul Hshape)
    as Hblock. cbv zeta in Hblock. rewrite <- Hdem in Hblock.
  destruct (getslice_step_phase (MinBleps.minblep self) shape scale m Hs Hshape Hmul)
    as [_ Hphase].
  rewrite <- Hphase, <- list_lookup_fmap, <- Hblock by done.
  rewrite lookup_take_lt, lookup_drop by lia. f_equal. lia.
Qed.


End Construction.

Lemma create_outcome_witness :
  ∃ self,
    MinBleps.create 0 1 example_cumsum 4 4 (Some 1) 0 = Ok self ∧
    MinBleps.naiverate self = 4 ∧ MinBleps.outrate self = 4 ∧
    Z.of_nat (length (MinBleps.naivex2outx self)) = 4 ∧
    Z.of_nat (length (MinBleps.outx2minnaivex self)) = 4 ∧
    length (MinBleps.demultiplexed self) = length (MinBleps.minblep self).
Proof.
  destruct (create_outcome 0 1 example_cumsum 4 4 (Some 1) 0) as [H _];
    [lia | lia | vm_compute; reflexivity |].
  apply H. right. reflexivity.
Defined.

Lemma naivex2off_phase_witness :
  ∃ shape off,
    getitem (MinBleps.naivex2shape example_4_6) 2 = Ok shape ∧
    getitem (MinBleps.naivex2off example_4_6) 2 = Ok off ∧
    off = shape * MinBleps.mixinsize example_4_6 ∧
    0 <= off ∧
    off + MinBleps.mixinsize example_4_6
    <= Z.of_nat (length (MinBleps.demultiplexed example_4_6)) ∧
    ∀ k, 0 <= k < MinBleps.mixinsize example_4_6 →
      MinBleps.demultiplexed example_4_6 !! Z.to_nat (off + k)
      = Some <$> MinBleps.minblep example_4_6 !! Z.to_nat (shape + k * 2).
Proof.
  apply (naivex2off_phase 0 1 example_cumsum 4 6 None 1);
    [lia | lia | vm_compute; reflexivity | vm_compute; reflexivity | lia].
Defined.

